(** * Mechanica: dictionary server and client, shallow embedding

    The development follows the two source files of the repository:
    - [server.js]: schema discovery with environment overrides ([META]),
      the prepared statements, [escapeLike], [fetchWords],
      [fetchDetailByWord];
    - the front-end script: [formatMeaning] (math stashing before the
      markdown pass) and the pronunciation handler of [renderDetail].

    Strings are sequences of character codes (the code points SQLite
    stores in UTF-8).  Host functions whose tables
    are not part of the repository ([String.prototype.toLowerCase],
    [String.prototype.localeCompare], [marked.parse]) are section
    variables, and so is what SQLite makes of the PRAGMA text for a
    table name that holds a double quote.  A statement that throws is
    the result [None]. *)

From Stdlib Require Import NArith ZArith Lia String Ascii DecimalNat.
From stdpp Require Import base option list sorting.

Set Default Proof Using "Type".
Local Open Scope N_scope.

(* ===================================================================== *)
(** * Part I: definitions *)
(* ===================================================================== *)

(** ** JavaScript strings and the built-ins the sources call *)
Module JS.

(** A string is the sequence of its character codes. *)
Abbreviation jstring := (list N).

(** An ASCII literal as a [jstring]. *)
Definition lit (s : string) : jstring :=
  map N_of_ascii (list_ascii_of_string s).

(** [if (s)] on a string: the empty string is falsy. *)
Definition truthy (s : jstring) : bool :=
  match s with [] => false | _ :: _ => true end.

(** [if (v)] on a value that is [null]/[undefined] or a string. *)
Definition truthy_opt (v : option jstring) : bool :=
  match v with Some s => truthy s | None => false end.

(** [v || null] on such a value. *)
Definition or_null (v : option jstring) : option jstring :=
  if truthy_opt v then v else None.

(** WhiteSpace and LineTerminator code points of ECMAScript: what [\s]
    matches in a regular expression and what [trim] strips. *)
Definition isWhiteSpace (c : N) : bool :=
  (c =? 9) || (c =? 10) || (c =? 11) || (c =? 12) || (c =? 13) || (c =? 32)
  || (c =? 160) || (c =? 5760) || ((8192 <=? c) && (c <=? 8202))
  || (c =? 8232) || (c =? 8233) || (c =? 8239) || (c =? 8287)
  || (c =? 12288) || (c =? 65279).

Fixpoint dropWhile (p : N → bool) (s : jstring) : jstring :=
  match s with
  | [] => []
  | c :: r => if p c then dropWhile p r else s
  end.

Definition trimStart (s : jstring) : jstring := dropWhile isWhiteSpace s.
Definition trimEnd (s : jstring) : jstring := rev (dropWhile isWhiteSpace (rev s)).

(** [s.trim()] *)
Definition trim (s : jstring) : jstring := trimEnd (trimStart s).

(** [s.split(/\s+/)]: the pieces between maximal runs of whitespace.
    [cur] is the piece being read (reversed); [inRun] tells that the
    previous character belonged to a separator. *)
Fixpoint split_ws_from (inRun : bool) (cur : jstring) (s : jstring) : list jstring :=
  match s with
  | [] => [rev cur]
  | c :: r =>
      if isWhiteSpace c
      then (if inRun then split_ws_from true [] r
            else rev cur :: split_ws_from true [] r)
      else split_ws_from false (c :: cur) r
  end.

Definition split_ws (s : jstring) : list jstring := split_ws_from false [] s.

(** Decimal digits of a number, as [String(i)] and template literals
    print a non-negative integer. *)
Fixpoint uint_chars (d : Decimal.uint) : jstring :=
  match d with
  | Decimal.Nil => []
  | Decimal.D0 d => 48 :: uint_chars d
  | Decimal.D1 d => 49 :: uint_chars d
  | Decimal.D2 d => 50 :: uint_chars d
  | Decimal.D3 d => 51 :: uint_chars d
  | Decimal.D4 d => 52 :: uint_chars d
  | Decimal.D5 d => 53 :: uint_chars d
  | Decimal.D6 d => 54 :: uint_chars d
  | Decimal.D7 d => 55 :: uint_chars d
  | Decimal.D8 d => 56 :: uint_chars d
  | Decimal.D9 d => 57 :: uint_chars d
  end.

Definition decimal (i : nat) : jstring := uint_chars (Nat.to_uint i).

(** Comparison of two strings by character code, as a number of sign
    -1, 0 or 1 (the ordinal order of [<] on strings). *)
Fixpoint ordinalCompare (a b : jstring) : Z :=
  match a, b with
  | [], [] => 0%Z
  | [], _ :: _ => (-1)%Z
  | _ :: _, [] => 1%Z
  | x :: a', y :: b' =>
      if x <? y then (-1)%Z
      else if y <? x then 1%Z
      else ordinalCompare a' b'
  end.

(** Lower-casing of the letters A to Z only. *)
Definition asciiLower (c : N) : N :=
  if (65 <=? c) && (c <=? 90) then c + 32 else c.

Definition toLowerASCII (s : jstring) : jstring := map asciiLower s.

(** [Array.prototype.sort(compareFn)] for a consistent comparator: a
    stable sort; an element moves in front of the ones it does not
    compare greater than. *)
Section Sort.
Context {A : Type} (compareFn : A → A → Z).

Fixpoint sort_insert (x : A) (l : list A) : list A :=
  match l with
  | [] => [x]
  | y :: l' =>
      if (compareFn x y <=? 0)%Z then x :: y :: l' else y :: sort_insert x l'
  end.

Fixpoint sort (l : list A) : list A :=
  match l with
  | [] => []
  | x :: l' => sort_insert x (sort l')
  end.

(** [x] may stand before [y] in an ascending sequence. *)
Definition ascending (x y : A) : Prop := (compareFn x y <= 0)%Z.
End Sort.

(** [a[i] = v] on an array with holes: in range the slot is overwritten,
    past the end the array grows and the skipped slots stay empty. *)
Definition array_set {A : Type} (i : nat) (v : A) (a : list (option A)) : list (option A) :=
  if decide (i < length a)%nat then <[i := Some v]> a
  else a ++ replicate (i - length a) None ++ [Some v].

End JS.

(** ** The fragment of SQLite the prepared statements use *)
Module Sqlite.
Import JS.

(** A column value: [NULL] or a TEXT. *)
Definition value : Type := option jstring.

Definition NUL : N := 0.
Definition DQUOTE : N := 34.
Definition PERCENT : N := 37.
Definition UNDERSCORE : N := 95.
Definition BACKSLASH : N := 92.

(** SQLite's string routines take a TEXT as a C string: what they see
    of it ends before its first NUL. *)
Fixpoint c_string (s : jstring) : jstring :=
  match s with
  | [] => []
  | c :: r => if c =? NUL then [] else c :: c_string r
  end.

(** [sqlite3_value_bytes]: the length of the whole TEXT in UTF-8, one to
    four bytes for a code point. *)
Definition utf8_bytes (c : N) : N :=
  if c <? 128 then 1 else if c <? 2048 then 2 else if c <? 65536 then 3 else 4.

Definition byte_length (s : jstring) : N :=
  foldr (fun c n => utf8_bytes c + n) 0 s.

(** [SQLITE_LIMIT_LIKE_PATTERN_LENGTH], at its default. *)
Definition LIKE_PATTERN_LENGTH : N := 50000.

(** Character comparison of [LIKE]: equal, or equal after folding the
    case of ASCII letters. *)
Definition like_char (c x : N) : bool :=
  (c =? x) || ((c <? 128) && (x <? 128) && (asciiLower c =? asciiLower x)).

(** [patternCompare] for LIKE, on what is seen of pattern and text
    ([esc = None]: no ESCAPE clause).  [%] matches any run of
    characters, [_] one character, the escape character makes the next
    pattern character literal. *)
Fixpoint patternCompare (esc : option N) (pat : jstring) : jstring → bool :=
  match pat with
  | [] => fun str => match str with [] => true | _ :: _ => false end
  | c :: p =>
      if c =? PERCENT then
        fix any (str : jstring) : bool :=
          patternCompare esc p str
          || match str with [] => false | _ :: str' => any str' end
      else if bool_decide (esc = Some c) then
        match p with
        | [] => fun _ => false
        | e :: p' => fun str =>
            match str with
            | [] => false
            | x :: str' => like_char e x && patternCompare esc p' str'
            end
        end
      else if c =? UNDERSCORE then
        fun str =>
          match str with [] => false | _ :: str' => patternCompare esc p str' end
      else
        fun str =>
          match str with
          | [] => false
          | x :: str' => like_char c x && patternCompare esc p str'
          end
  end.

(** [likeFunc]: a pattern of more than [LIKE_PATTERN_LENGTH] bytes is an
    error ([None]: the statement throws), before the text is looked at. *)
Definition pattern_too_complex (pat : jstring) : bool :=
  LIKE_PATTERN_LENGTH <? byte_length pat.

(** [str LIKE pat ESCAPE esc] on two TEXTs. *)
Definition like (esc : option N) (pat str : jstring) : option bool :=
  if pattern_too_complex pat then None
  else Some (patternCompare esc (c_string pat) (c_string str)).

(** [t] contains [q] as a substring, letters of ASCII compared without
    regard to case and every other character compared exactly. *)
Definition contains_nocase (q t : jstring) : Prop :=
  ∃ pre mid post, t = pre ++ mid ++ post ∧ Forall2 (fun c x => like_char c x = true) q mid.

(** [v LIKE pat] in a WHERE clause: the function is called on NULL too,
    and NULL is not a match. *)
Definition where_like (esc : option N) (pat : jstring) (v : value) : option bool :=
  match v with
  | Some s => like esc pat s
  | None => if pattern_too_complex pat then None else Some false
  end.

(** The scan of a WHERE clause, row by row: the first row on which the
    condition is an error ends the statement with that error. *)
Fixpoint sql_where {R : Type} (cond : R → option bool) (rows : list R)
    : option (list R) :=
  match rows with
  | [] => Some []
  | r :: rows' =>
      match cond r with
      | None => None
      | Some keep =>
          match sql_where cond rows' with
          | None => None
          | Some out => Some (if keep then r :: out else out)
          end
      end
  end.

(** [sqlite3StrNICmp] over the common length, as a number of sign -1, 0
    or 1: the scan stops at a NUL of the left text and at the first
    characters that differ after folding ASCII upper case. *)
Fixpoint strNICmp (a b : jstring) : Z :=
  match a, b with
  | x :: a', y :: b' =>
      if negb (x =? NUL) && (asciiLower x =? asciiLower y) then strNICmp a' b'
      else if asciiLower x <? asciiLower y then (-1)%Z
      else if asciiLower y <? asciiLower x then 1%Z
      else 0%Z
  | _, _ => 0%Z
  end.

(** The collations: BINARY compares the text as it is; NOCASE is
    [strNICmp], and the byte lengths decide when that finds no
    difference. *)
Definition binary (a b : jstring) : Z := ordinalCompare a b.
Definition nocase (a b : jstring) : Z :=
  let r := strNICmp a b in
  if (r =? 0)%Z then (Z.of_N (byte_length a) - Z.of_N (byte_length b))%Z else r.

(** [ORDER BY key COLLATE coll ASC]; NULL sorts first.  Rows with equal
    keys are kept in scan order. *)
Definition collate_value (coll : jstring → jstring → Z) (a b : value) : Z :=
  match a, b with
  | None, None => 0%Z
  | None, Some _ => (-1)%Z
  | Some _, None => 1%Z
  | Some x, Some y => coll x y
  end.

Definition order_by {R : Type} (coll : jstring → jstring → Z) (key : R → value)
    (rows : list R) : list R :=
  sort (fun r1 r2 => collate_value coll (key r1) (key r2)) rows.

End Sqlite.

(** ** server.js *)
Module Server.
Import JS Sqlite.

(** *** Schema discovery and the environment override *)

Record Meta : Type := mkMeta {
  table : jstring;
  wordCol : jstring;
  meaningCol : jstring;
  audioCol : jstring;
  wikiCol : option jstring
}.

(** The tables of the database file: name and column names in declared
    order (what [sqlite_master] and [PRAGMA table_info] report). *)
Definition catalog : Type := list (jstring * list jstring).

(** What [discoverSchema] throws: its own two errors, and the error of
    the PRAGMA statement when that cannot be prepared. *)
Inductive schema_error : Type :=
  | NoUserTable
  | TooFewColumns (table : jstring)
  | PragmaError (table : jstring).

(** [name NOT LIKE 'sqlite_%'] *)
Definition user_table (name : jstring) : bool :=
  match like None (lit "sqlite_%") name with
  | Some false => true
  | _ => false
  end.

(** [SELECT name FROM sqlite_master WHERE type='table'
     AND name NOT LIKE 'sqlite_%' ORDER BY name LIMIT 1] *)
Definition first_user_table (cat : catalog) : option jstring :=
  head (take 1 (order_by binary (fun n => Some n) (filter user_table (map fst cat)))).

(** The name is written into the statement between double quotes as it
    is: one that holds a double quote (or a NUL) does not reach SQLite
    as that name. *)
Definition quotable (t : jstring) : bool :=
  forallb (fun c => negb ((c =? DQUOTE) || (c =? NUL))) t.

Section Discovery.
(** What the statement answers for a name that is not [quotable].  The
    text between the first pair of quotes is then not the name, and the
    rest of it decides whether SQLite reads a statement at all ([None]:
    [prepare] throws) and of which table it reports the columns; that
    reading is left to this parameter. *)
Variable table_info_unquoted : catalog → jstring → option (list jstring).

(** [db.prepare(`PRAGMA table_info("${table}")`).all()]: the column
    names, none for a name that is not a table; [None] when the
    statement throws. *)
Definition table_info (cat : catalog) (t : jstring) : option (list jstring) :=
  if quotable t then
    Some match find (fun e => bool_decide (e.1 = t)) cat with
         | Some e => e.2
         | None => []
         end
  else table_info_unquoted cat t.

Definition discoverSchema (cat : catalog) : schema_error + Meta :=
  match first_user_table cat with
  | None => inl NoUserTable
  | Some t =>
      match table_info cat t with
      | None => inl (PragmaError t)
      | Some cols =>
          if (length cols <? 3)%nat then inl (TooFewColumns t)
          else
            match take 4 cols with
            | w :: m :: a :: rest =>
                inr {| table := t; wordCol := w; meaningCol := m; audioCol := a;
                       wikiCol := or_null (head rest) |}
            | _ => inl (TooFewColumns t)
            end
      end
  end.

(** The five environment variables read at start-up. *)
Record Env : Type := mkEnv {
  DB_TABLE : option jstring;
  DB_WORD_COL : option jstring;
  DB_MEANING_COL : option jstring;
  DB_AUDIO_COL : option jstring;
  DB_WIKI_COL : option jstring
}.

(** Outcome of the start-up block: [META] is set, or the process exits
    with the given code. *)
Inductive startup : Type :=
  | Using (META : Meta)
  | Exit (code : Z).

Definition loadMeta (cat : catalog) (env : Env) : startup :=
  match discoverSchema cat with
  | inl _ => Exit 1
  | inr discovered =>
      match DB_TABLE env, DB_WORD_COL env, DB_MEANING_COL env, DB_AUDIO_COL env with
      | Some t, Some w, Some m, Some a =>
          if truthy t && truthy w && truthy m && truthy a
          then Using {| table := t; wordCol := w; meaningCol := m; audioCol := a;
                        wikiCol := or_null (DB_WIKI_COL env) |}
          else Using discovered
      | _, _, _, _ => Using discovered
      end
  end.
End Discovery.

(** *** Statements and data access helpers *)

(** A row of the bound table, seen through the columns of [META];
    [wiki] is NULL when there is no link column. *)
Record row : Type := mkRow {
  w : value;
  m : value;
  a : value;
  wiki : value
}.

Definition LIMIT : nat := N.to_nat 10000.

(** [stmtListWords.all()] *)
Definition stmtListWords (db : list row) : list value :=
  w <$> take LIMIT (order_by nocase w (filter (fun r => bool_decide (w r ≠ None)) db)).

(** [stmtSearchWords.all(pat)]; [None] when the statement throws. *)
Definition stmtSearchWords (db : list row) (pat : jstring) : option (list value) :=
  match sql_where (fun r => where_like (Some BACKSLASH) pat (w r)) db with
  | None => None
  | Some rows => Some (w <$> take LIMIT (order_by nocase w rows))
  end.


(** [String(s).replace(/([%_\\])/g, '\\$1')] *)
Definition escapeLike (s : jstring) : jstring :=
  flat_map (fun c =>
    if (c =? PERCENT) || (c =? UNDERSCORE) || (c =? BACKSLASH)
    then [BACKSLASH; c] else [c]) s.

(** [.filter(Boolean)] on the selected column. *)
Definition filterBoolean (vs : list value) : list jstring :=
  omap (fun v => if truthy_opt v then v else None) vs.

Section Repository.
Variable toLowerCase : jstring → jstring.
Variable localeCompare : jstring → jstring → Z.

(** [(a, b) => a.toLowerCase().localeCompare(b.toLowerCase())] *)
Definition compareWords (x y : jstring) : Z :=
  localeCompare (toLowerCase x) (toLowerCase y).

(** [None]: the statement has thrown, and so does [fetchWords]. *)
Definition fetchWords (db : list row) (search : jstring) : option (list jstring) :=
  if truthy search then
    match stmtSearchWords db ([PERCENT] ++ escapeLike search ++ [PERCENT]) with
    | None => None
    | Some rows =>
        let words := filterBoolean rows in
        Some (sort compareWords words)
    end
  else
    let rows := stmtListWords db in
    let words := filterBoolean rows in
    Some (sort compareWords words).
End Repository.



(** *** Routes *)



Section Routes.
Variable toLowerCase : jstring → jstring.
Variable localeCompare : jstring → jstring → Z.

(** [app.get('/api/words', ...)]: the [items] of the answer, for the
    [search] parameter of the query string (absent or a string);
    [(req.query.search || '').trim()] is the query.  [None] is the
    answer of the [catch]: status 500 and no items. *)
Definition apiWords (db : list row) (search : option jstring)
    : option (list jstring) :=
  let q := trim (match or_null search with Some s => s | None => [] end) in
  fetchWords toLowerCase localeCompare db q.
End Routes.

End Server.

(** ** The front-end script *)
Module Client.
Import JS.

Definition DOLLAR : N := 36.
Definition QUOTE : N := 34.
Definition LT : N := 60.

Definition AMP : N := 38.
Definition APOS : N := 39.
Definition GT : N := 62.
Definition BACKTICK : N := 96.

(** *** escapeHtml and escapeAttribute *)

(** The five characters ampersand, less-than, greater-than, double
    quote and apostrophe are replaced by their entities. *)
Definition escapeHtml (s : jstring) : jstring :=
  flat_map (fun c =>
    if c =? AMP then lit "&amp;"
    else if c =? LT then lit "&lt;"
    else if c =? GT then lit "&gt;"
    else if c =? QUOTE then lit "&quot;"
    else if c =? APOS then lit "&#39;"
    else [c]) s.

(** The five characters double quote, apostrophe, backtick, less-than
    and greater-than are replaced by their entities; the ampersand is
    left as it is. *)
Definition escapeAttribute (s : jstring) : jstring :=
  flat_map (fun c =>
    if c =? QUOTE then lit "&quot;"
    else if c =? APOS then lit "&#39;"
    else if c =? BACKTICK then lit "&#96;"
    else if c =? LT then lit "&lt;"
    else if c =? GT then lit "&gt;"
    else [c]) s.

(** *** formatMeaning *)

(** An entry of the [replacements] array. *)
Record replacement : Type := mkReplacement {
  formula : jstring;
  isDisplay : bool
}.

(** [placeholder(i)]: the token [<!--knt-math-p${i}-->]. *)
Definition placeholder (i : nat) : jstring :=
  lit "<!--knt-math-p" ++ decimal i ++ lit "-->".

(** The lazy body [([\s\S]*?)] followed by the closing [\$\$]: the
    shortest prefix after which the text continues with two dollars. *)
Fixpoint lazyUntilClose (r : jstring) : option jstring :=
  match r with
  | [] => None
  | c :: r' =>
      if (c =? DOLLAR) && (match r' with d :: _ => d =? DOLLAR | [] => false end)
      then Some []
      else cons c <$> lazyUntilClose r'
  end.

(** [/\$\$([\s\S]*?)\$\$/] tried at the start of [s]: the captured group
    and the length of the whole match. *)
Definition matchDisplay (s : jstring) : option (jstring * nat) :=
  match s with
  | c :: d :: r =>
      if (c =? DOLLAR) && (d =? DOLLAR)
      then (fun f => (f, (length f + 4)%nat)) <$> lazyUntilClose r
      else None
  | _ => None
  end.

(** The longest prefix without a dollar, and what follows it. *)
Fixpoint spanNoDollar (r : jstring) : jstring * jstring :=
  match r with
  | [] => ([], [])
  | c :: r' =>
      if c =? DOLLAR then ([], r)
      else let '(f, rest) := spanNoDollar r' in (c :: f, rest)
  end.

(** [/\$([^\$]+?)\$/] tried at the start of [s]: a dollar, one or more
    characters other than a dollar, and a dollar (the run of non-dollar
    characters ends at a dollar or at the end of the text). *)
Definition matchInline (s : jstring) : option (jstring * nat) :=
  match s with
  | c :: r =>
      if c =? DOLLAR then
        let '(f, rest) := spanNoDollar r in
        if truthy f && truthy rest then Some (f, (length f + 2)%nat) else None
      else None
  | [] => None
  end.

(** The variables the two [replace] callbacks share. *)
Record stash_state : Type := mkStash {
  counter : nat;
  replacements : list (option replacement)
}.

(** [content.replace(re, callback)] with a global regular expression
    [re] and the stashing callback: the text is scanned from the left,
    at each position the expression is tried; a match is replaced by the
    placeholder of a fresh id and the scan resumes after it, otherwise
    the character is copied.  [skip] counts the characters of the
    current match still to pass over. *)
Fixpoint stash (re : jstring → option (jstring * nat)) (display : bool)
    (s : jstring) (skip : nat) (st : stash_state) : jstring * stash_state :=
  match s with
  | [] => ([], st)
  | c :: r =>
      match skip with
      | S k => stash re display r k st
      | O =>
          match re s with
          | Some (f, len) =>
              let id := counter st in
              let st' := {| counter := S id;
                            replacements :=
                              array_set id {| formula := trim f; isDisplay := display |}
                                (replacements st) |} in
              let '(out, st'') := stash re display r (len - 1) st' in
              (placeholder id ++ out, st'')
          | None =>
              let '(out, st') := stash re display r 0 st in
              (c :: out, st')
          end
      end
  end.

(** The first two steps of [formatMeaning] on a non-empty text: display
    math is stashed, then inline math; the result is the text handed to
    the markdown pass and the [replacements] array. *)
Definition stashMath (s : jstring) : jstring * list (option replacement) :=
  let '(content1, st1) := stash matchDisplay true s 0 {| counter := 0; replacements := [] |} in
  let '(content2, st2) := stash matchInline false content1 0 st1 in
  (content2, replacements st2).

(** The fixed text returned for a missing definition. *)
Definition noDefinition : jstring :=
  lit "<em style=" ++ [QUOTE] ++ lit "color:#9ca3af" ++ [QUOTE] ++ lit ">("
  ++ [1576; 1583; 1608; 1606; 32; 1578; 1593; 1585; 1740; 1601]
  ++ lit ")</em>".

(** The state of [formatMeaning] after the markdown pass and before the
    placeholders are turned into elements. *)
Record RenderPlan : Type := mkPlan {
  htmlBody : jstring;
  mathSegments : list (option replacement)
}.

Section Render.
(** [marked.parse(content, { breaks: true })] *)
Variable marked_parse : jstring → jstring.

Definition render (s : option jstring) : RenderPlan :=
  match s with
  | Some text =>
      if truthy text then
        let '(content, reps) := stashMath text in
        {| htmlBody := marked_parse content; mathSegments := reps |}
      else {| htmlBody := noDefinition; mathSegments := [] |}
  | None => {| htmlBody := noDefinition; mathSegments := [] |}
  end.
End Render.

(** Number of positions of [s] at which the token [t] starts. *)
Fixpoint starts_with (t s : jstring) : bool :=
  match t, s with
  | [], _ => true
  | _ :: _, [] => false
  | x :: t', y :: s' => (x =? y) && starts_with t' s'
  end.

Fixpoint occurrences (t s : jstring) : nat :=
  (if starts_with t s then 1 else 0)%nat +
  match s with
  | [] => 0%nat
  | _ :: s' => occurrences t s'
  end.

(** Occurrences of the token inside the stashed formulas. *)
Definition formula_occurrences (t : jstring) (reps : list (option replacement)) : nat :=
  foldr (fun o n =>
    (match o with Some r => occurrences t (formula r) | None => 0 end + n)%nat) 0%nat reps.

(** The element put in the place of a placeholder. *)
Definition placeholderHtml (rep : replacement) : jstring :=
  lit "<span data-math-placeholder=" ++ [QUOTE] ++ escapeAttribute (formula rep)
  ++ [QUOTE] ++ lit " data-math-mode=" ++ [QUOTE]
  ++ (if isDisplay rep then lit "display" else lit "inline")
  ++ [QUOTE] ++ lit "></span>".

(** The replacement text of [String.prototype.replace] for a string
    pattern: [$$] is a dollar, [$&] the matched text, [$`] the text
    before and [$'] the text after the match; there are no captures, so
    any other dollar stands for itself. *)
Fixpoint getSubstitution (matched before after : jstring) (repl : jstring) : jstring :=
  match repl with
  | [] => []
  | c :: r =>
      if c =? DOLLAR then
        match r with
        | [] => [c]
        | d :: r' =>
            if d =? DOLLAR then DOLLAR :: getSubstitution matched before after r'
            else if d =? AMP then matched ++ getSubstitution matched before after r'
            else if d =? BACKTICK then before ++ getSubstitution matched before after r'
            else if d =? APOS then after ++ getSubstitution matched before after r'
            else c :: getSubstitution matched before after r
        end
      else c :: getSubstitution matched before after r
  end.

(** The text before and after the first occurrence of [pat]. *)
Fixpoint splitFirst (pat s : jstring) : option (jstring * jstring) :=
  if starts_with pat s then Some ([], drop (length pat) s)
  else
    match s with
    | [] => None
    | c :: r => (fun ba : jstring * jstring => (c :: ba.1, ba.2)) <$> splitFirst pat r
    end.

(** [s.replace(pat, repl)] with strings [pat] and [repl]: the first
    occurrence only. *)
Definition replaceFirst (pat repl s : jstring) : jstring :=
  match splitFirst pat s with
  | None => s
  | Some (before, after) => before ++ getSubstitution pat before after repl ++ after
  end.

(** The loop [for (let i = 0; i < replacements.length; i++)], from
    index [i] on; an empty slot is passed over. *)
Fixpoint restore (i : nat) (reps : list (option replacement)) (html : jstring) : jstring :=
  match reps with
  | [] => html
  | o :: rest =>
      restore (S i) rest
        match o with
        | Some rep => replaceFirst (placeholder i) (placeholderHtml rep) html
        | None => html
        end
  end.

Section FormatMeaning.
Variable marked_parse : jstring → jstring.

Definition formatMeaning (s : option jstring) : jstring :=
  match s with
  | Some text =>
      if truthy text then
        let '(content, reps) := stashMath text in
        restore 0 reps (marked_parse content)
      else noDefinition
  | None => noDefinition
  end.
End FormatMeaning.

(** *** The pronunciation button *)

(** [String(audioUrl).trim().split(/\s+/).filter(url => url.length > 0)] *)
Definition audioUrls (audioUrl : jstring) : list jstring :=
  filter (fun url => (0 < length url)%nat) (split_ws (trim audioUrl)).

(** The button exists only for a truthy [audioUrl]; without it nothing
    is played. *)
Definition playbackPlan (audioUrl : option jstring) : list jstring :=
  match audioUrl with
  | Some s => if truthy s then audioUrls s else []
  | None => []
  end.

(** What the handler does, in order: an [Audio] is created for a source
    and played, or [playNext] is put on a timer. *)
Inductive effect : Type :=
  | Play (src : jstring)
  | Timeout (ms : nat).

(** What the [Audio] being played reports. *)
Inductive audio_event : Type :=
  | ended
  | error.

(** [playNext()] at [currentIndex]: past the end nothing happens. *)
Definition playNext (urls : list jstring) (currentIndex : nat) : list effect :=
  match urls !! currentIndex with
  | Some url => [Play (escapeAttribute url)]
  | None => []
  end.

(** The two listeners: both advance [currentIndex]; after [ended] the
    next call of [playNext] goes through [setTimeout(playNext, 200)],
    after [error] it is made at once.  While no [Audio] is playing
    there is no event to handle. *)
Fixpoint playAll (urls : list jstring) (currentIndex : nat) (events : list audio_event)
    : list effect :=
  match events with
  | [] => []
  | e :: events' =>
      match urls !! currentIndex with
      | None => []
      | Some _ =>
          match e with
          | ended => Timeout 200 :: playNext urls (S currentIndex)
          | error => playNext urls (S currentIndex)
          end ++ playAll urls (S currentIndex) events'
      end
  end.

(** A click on the button: [if (audioUrls.length === 0) return;], then
    [playNext()] and the events of the sources as they come. *)
Definition playClick (audioUrl : jstring) (events : list audio_event) : list effect :=
  let urls := audioUrls audioUrl in
  if bool_decide (length urls = 0%nat) then []
  else playNext urls 0 ++ playAll urls 0 events.

(** The plan in the words of the specification: the maximal runs of
    non-whitespace characters, from left to right. *)
Fixpoint spec_tokens (cur : jstring) (s : jstring) : list jstring :=
  match s with
  | [] => match cur with [] => [] | _ :: _ => [rev cur] end
  | c :: r =>
      if isWhiteSpace c
      then match cur with
           | [] => spec_tokens [] r
           | _ :: _ => rev cur :: spec_tokens [] r
           end
      else spec_tokens (c :: cur) r
  end.

Definition spec_buildPlan (audioRef : option jstring) : list jstring :=
  match audioRef with
  | Some s => spec_tokens [] s
  | None => []
  end.

End Client.

(** ** Sample data used to exercise the theorems *)
Module Samples.
Import JS Sqlite Server Client.

Definition nullRow (t : value) : row := {| w := t; m := None; a := None; wiki := None |}.

(** A catalog with SQLite's own bookkeeping table and one user table. *)
Definition catalog1 : catalog :=
  [ (lit "sqlite_sequence", [lit "name"; lit "seq"]);
    (lit "terms", [lit "word"; lit "meaning"; lit "audio"; lit "wiki"]) ].

(** A PRAGMA that throws for every name that holds a double quote. *)
Definition noPragma (cat : catalog) (t : jstring) : option (list jstring) := None.

(** Table, term and definition overridden, audio left out. *)
Definition envPartial : Env :=
  {| DB_TABLE := Some (lit "glossary"); DB_WORD_COL := Some (lit "term");
     DB_MEANING_COL := Some (lit "definition"); DB_AUDIO_COL := None;
     DB_WIKI_COL := None |}.

(** All four overridden, link left out. *)
Definition envFull : Env :=
  {| DB_TABLE := Some (lit "glossary"); DB_WORD_COL := Some (lit "term");
     DB_MEANING_COL := Some (lit "definition"); DB_AUDIO_COL := Some (lit "sound");
     DB_WIKI_COL := None |}.

Definition beamRow : row :=
  {| w := Some (lit "Beam"); m := Some (lit "A structural member");
     a := Some (lit "beam.mp3"); wiki := Some [] |}.

Definition db1 : list row :=
  [ nullRow (Some (lit "Torque")); beamRow; nullRow None; nullRow (Some []);
    nullRow (Some (lit "50%")); nullRow (Some (lit "500 rpm")) ].

(** A host collation that files a-umlaut (code 228) right after a, as
    the German collation does: [localeCompare] of a-umlaut with z is
    negative there, while the character codes compare the other way. *)
Definition umlautKey (c : N) : N := if c =? 228 then 2 * 97 + 1 else 2 * c.
Definition umlautCompare (x y : jstring) : Z :=
  ordinalCompare (map umlautKey x) (map umlautKey y).

(** What the markdown pass makes of a text without markdown syntax:
    one paragraph. *)
Definition paragraph (content : jstring) : jstring :=
  lit "<p>" ++ content ++ lit "</p>" ++ [10].

Definition forceText : jstring :=
  lit "Force ($F$) equals mass times acceleration: $$F = ma$$".

Definition db2 : list row := [ nullRow (Some (lit "z")); nullRow (Some [228]) ].

End Samples.

(* ===================================================================== *)
(** * Part II: properties *)
(* ===================================================================== *)

(** ** The sort of [Array.prototype.sort] *)
Module SortFacts.
Import JS.

Section Sorting.
Context {A : Type} (compareFn : A → A → Z).

Lemma sort_insert_perm x l : sort_insert compareFn x l ≡ₚ x :: l.
Proof.
  induction l as [|y l IH]; simpl; [done|].
  destruct (compareFn x y <=? 0)%Z; [done|].
  rewrite IH. apply Permutation_swap.
Qed.

Lemma sort_perm l : sort compareFn l ≡ₚ l.
Proof.
  induction l as [|x l IH]; simpl; [done|].
  by rewrite sort_insert_perm, IH.
Qed.

Lemma elem_of_sort x l : x ∈ sort compareFn l ↔ x ∈ l.
Proof. by rewrite sort_perm. Qed.

Lemma length_sort l : length (sort compareFn l) = length l.
Proof. by rewrite sort_perm. Qed.

Hypothesis compare_total : ∀ x y, (0 < compareFn x y)%Z → (compareFn y x <= 0)%Z.
Hypothesis compare_trans :
  ∀ x y z, (compareFn x y <= 0)%Z → (compareFn y z <= 0)%Z → (compareFn x z <= 0)%Z.

Lemma sort_insert_sorted x l :
  StronglySorted (ascending compareFn) l → StronglySorted (ascending compareFn) (sort_insert compareFn x l).
Proof using compare_total compare_trans.
  induction 1 as [|y l Hl IH Hy]; simpl.
  - repeat constructor.
  - destruct (Z.leb_spec (compareFn x y) 0) as [Hle|Hgt].
    + constructor; [by constructor|].
      constructor; [done|].
      eapply Forall_impl; [exact Hy|]. intros z Hz. by eapply compare_trans.
    + constructor; [done|].
      rewrite sort_insert_perm. constructor; [|done].
      by apply compare_total.
Qed.

Lemma sort_sorted l : StronglySorted (ascending compareFn) (sort compareFn l).
Proof using compare_total compare_trans.
  induction l; simpl; [constructor|]. by apply sort_insert_sorted.
Qed.

End Sorting.

(** The ordinal comparison is a consistent comparator, also after a
    recoding of the characters. *)
Lemma ordinalCompare_total x y :
  (0 < ordinalCompare x y)%Z → (ordinalCompare y x <= 0)%Z.
Proof.
  revert y; induction x as [|c x IH]; intros [|d y]; simpl; try lia.
  destruct (N.ltb_spec c d), (N.ltb_spec d c); try lia. apply IH.
Qed.

Lemma ordinalCompare_trans x y z :
  (ordinalCompare x y <= 0)%Z → (ordinalCompare y z <= 0)%Z →
  (ordinalCompare x z <= 0)%Z.
Proof.
  revert y z; induction x as [|c x IH]; intros [|d y] [|e z]; simpl; try lia.
  destruct (N.ltb_spec c d), (N.ltb_spec d c), (N.ltb_spec d e),
    (N.ltb_spec e d), (N.ltb_spec c e), (N.ltb_spec e c); try lia.
  apply IH.
Qed.

End SortFacts.

(** ** server.js: schema binding *)
Module SchemaFacts.
Import JS Sqlite Server.

Lemma truthy_opt_Some (v : option jstring) :
  truthy_opt v = true ↔ ∃ c s, v = Some (c :: s).
Proof.
  destruct v as [[|c s]|]; simpl; split; try done; try (intros (?&?&?); done).
  eauto.
Qed.

(** The override is decided by the guard
    [ENV_TABLE && ENV_WORD && ENV_MEANING && ENV_AUDIO] alone. *)
Lemma loadMeta_guard pragma cat env discovered :
  discoverSchema pragma cat = inr discovered →
  loadMeta pragma cat env =
    if truthy_opt (DB_TABLE env) && truthy_opt (DB_WORD_COL env)
       && truthy_opt (DB_MEANING_COL env) && truthy_opt (DB_AUDIO_COL env)
    then Using {| table := default [] (DB_TABLE env);
                  wordCol := default [] (DB_WORD_COL env);
                  meaningCol := default [] (DB_MEANING_COL env);
                  audioCol := default [] (DB_AUDIO_COL env);
                  wikiCol := or_null (DB_WIKI_COL env) |}
    else Using discovered.
Proof.
  intros Hd. unfold loadMeta. rewrite Hd.
  destruct env as [[t|] [x|] [y|] [z|] k]; simpl;
    rewrite ?andb_false_r; try done.
Qed.

(** C1, as the code has it: an override that leaves out the audio column
    is the discovered schema; the process exits on that path only
    when discovery itself fails.  An override naming table, term,
    definition and audio columns (link omitted) replaces the discovered
    binding and has no link column.  ([pragma] is the answer of the
    PRAGMA statement for a table name that holds a double quote.) *)
Theorem override_partial_ignored_full_applied
    (pragma : catalog → jstring → option (list jstring)) cat env discovered :
  discoverSchema pragma cat = inr discovered →
  (truthy_opt (DB_AUDIO_COL env) = false → loadMeta pragma cat env = Using discovered)
  ∧ (truthy_opt (DB_TABLE env) = true → truthy_opt (DB_WORD_COL env) = true →
     truthy_opt (DB_MEANING_COL env) = true → truthy_opt (DB_AUDIO_COL env) = true →
     DB_WIKI_COL env = None →
     ∃ META, loadMeta pragma cat env = Using META
       ∧ Some (table META) = DB_TABLE env ∧ Some (wordCol META) = DB_WORD_COL env
       ∧ Some (meaningCol META) = DB_MEANING_COL env
       ∧ Some (audioCol META) = DB_AUDIO_COL env
       ∧ wikiCol META = None).
Proof.
  intros Hd. rewrite (loadMeta_guard _ _ _ _ Hd). split.
  - intros ->. by rewrite andb_false_r.
  - intros Ht Hw Hm Ha Hk. rewrite Ht, Hw, Hm, Ha. simpl.
    eexists; split; [done|]. simpl. rewrite Hk.
    apply truthy_opt_Some in Ht as (?&?&->), Hw as (?&?&->),
      Hm as (?&?&->), Ha as (?&?&->). done.
Qed.

Lemma override_partial_ignored_full_applied_witness :
  loadMeta Samples.noPragma Samples.catalog1 Samples.envPartial =
    Using (mkMeta (lit "terms") (lit "word") (lit "meaning") (lit "audio")
             (Some (lit "wiki")))
  ∧ ∃ META, loadMeta Samples.noPragma Samples.catalog1 Samples.envFull = Using META
      ∧ Some (table META) = Some (lit "glossary") ∧ wikiCol META = None.
Proof.
  pose proof (override_partial_ignored_full_applied Samples.noPragma
                Samples.catalog1) as H.
  split.
  - apply (H Samples.envPartial); reflexivity.
  - destruct (H Samples.envFull _ eq_refl) as [_ H2].
    destruct H2 as (META & ? & ? & ? & ? & ? & ?); try reflexivity.
    exists META. auto.
Defined.

(** C1 as stated fails: with table, term and definition columns given
    and the audio column left out, start-up does not exit; the server
    runs on the discovered binding. *)
Lemma override_without_audio_not_rejected :
  loadMeta Samples.noPragma Samples.catalog1 Samples.envPartial =
    Using (mkMeta (lit "terms") (lit "word") (lit "meaning") (lit "audio")
             (Some (lit "wiki")))
  ∧ ∀ code, loadMeta Samples.noPragma Samples.catalog1 Samples.envPartial ≠ Exit code.
Proof. split; [reflexivity|]. intros code. vm_compute. discriminate. Qed.

End SchemaFacts.

(** ** The LIKE operator on an escaped pattern *)
Module LikeFacts.
Import JS Sqlite Server.

Lemma like_nil esc s : patternCompare esc [] s = true ↔ s = [].
Proof. by destruct s. Qed.

Lemma like_percent_nil esc p :
  patternCompare esc (PERCENT :: p) [] = patternCompare esc p [].
Proof. simpl. by rewrite orb_false_r. Qed.

Lemma like_percent_cons esc p x s :
  patternCompare esc (PERCENT :: p) (x :: s)
  = patternCompare esc p (x :: s) || patternCompare esc (PERCENT :: p) s.
Proof. reflexivity. Qed.

(** [%] stands for any prefix. *)
Lemma like_percent esc p s :
  patternCompare esc (PERCENT :: p) s = true
  ↔ ∃ pre rest, s = pre ++ rest ∧ patternCompare esc p rest = true.
Proof.
  induction s as [|x s IH].
  - rewrite like_percent_nil. split.
    + intros H. by exists [], [].
    + intros (pre & rest & Hs & H). symmetry in Hs.
      apply app_eq_nil in Hs as [-> ->]. done.
  - rewrite like_percent_cons, orb_true_iff, IH. split.
    + intros [H|(pre & rest & -> & H)].
      * by exists [], (x :: s).
      * by exists (x :: pre), rest.
    + intros ([|y pre] & rest & Hs & H); simpl in Hs.
      * left. by subst rest.
      * right. injection Hs as -> ->. by exists pre, rest.
Qed.

Lemma like_percent_only esc s : patternCompare esc [PERCENT] s = true.
Proof. apply like_percent. exists s, []. by rewrite app_nil_r. Qed.

(** An escaped character and an ordinary character both stand for
    themselves. *)
Lemma like_escaped_char p c s :
  patternCompare (Some BACKSLASH) (escapeLike [c] ++ p) s = true ↔
  ∃ x s', s = x :: s' ∧ like_char c x = true
    ∧ patternCompare (Some BACKSLASH) p s' = true.
Proof.
  unfold escapeLike. simpl flat_map. rewrite app_nil_r.
  destruct ((c =? PERCENT) || (c =? UNDERSCORE) || (c =? BACKSLASH)) eqn:Hc.
  - change (patternCompare (Some BACKSLASH) ([BACKSLASH; c] ++ p) s)
      with (match s with [] => false
            | x :: s' => like_char c x && patternCompare (Some BACKSLASH) p s' end).
    destruct s as [|x s']; [split; [done|intros (?&?&?&?); done]|].
    rewrite andb_true_iff. split.
    + intros [? ?]. by exists x, s'.
    + intros (?&?&[= <- <-]&?&?). done.
  - apply orb_false_iff in Hc as [Hc H3]. apply orb_false_iff in Hc as [H1 H2].
    simpl app. cbn [patternCompare]. rewrite H1.
    assert (bool_decide (Some BACKSLASH = Some c) = false) as ->.
    { apply bool_decide_eq_false. intros [= <-]. done. }
    rewrite H2.
    destruct s as [|x s']; [split; [done|intros (?&?&?&?); done]|].
    rewrite andb_true_iff. split.
    + intros [? ?]. by exists x, s'.
    + intros (?&?&[= <- <-]&?&?). done.
Qed.

Lemma escapeLike_cons c q : escapeLike (c :: q) = escapeLike [c] ++ escapeLike q.
Proof. unfold escapeLike. simpl. by rewrite app_nil_r. Qed.

(** The escaped query matches exactly the texts that start with the
    query, character by character. *)
Lemma like_escaped q p s :
  patternCompare (Some BACKSLASH) (escapeLike q ++ p) s = true ↔
  ∃ mid rest, s = mid ++ rest
    ∧ Forall2 (fun c x => like_char c x = true) q mid
    ∧ patternCompare (Some BACKSLASH) p rest = true.
Proof.
  revert s; induction q as [|c q IH]; intros s.
  - simpl. split.
    + intros H. exists [], s. by repeat split; [constructor|].
    + intros (mid & rest & -> & Hq & H). by inversion Hq.
  - rewrite escapeLike_cons, <- app_assoc, like_escaped_char. split.
    + intros (x & s' & -> & Hx & H). apply IH in H as (mid & rest & -> & Hq & H).
      exists (x :: mid), rest. repeat split; [by constructor|done].
    + intros (mid & rest & -> & Hq & H). inversion Hq as [|? x ? mid' Hx Hq']; subst.
      exists x, (mid' ++ rest). repeat split; [done|].
      apply IH. by exists mid', rest.
Qed.

(** The pattern built by [fetchWords] selects the texts that contain
    the query. *)
Lemma like_search_pattern q t :
  patternCompare (Some BACKSLASH) ([PERCENT] ++ escapeLike q ++ [PERCENT]) t = true ↔
  contains_nocase q t.
Proof.
  simpl app. rewrite like_percent. unfold contains_nocase. split.
  - intros (pre & rest & -> & H). apply like_escaped in H as (mid & post & -> & Hq & _).
    by exists pre, mid, post.
  - intros (pre & mid & post & -> & Hq). exists pre, (mid ++ post). split; [done|].
    apply like_escaped. exists mid, post. repeat split; [done|].
    apply like_percent_only.
Qed.

(** A character that is not an ASCII letter matches only itself. *)
Lemma like_char_exact c x :
  like_char c x = true → (c < 65 ∨ 90 < c) → (c < 97 ∨ 122 < c) → x = c.
Proof.
  unfold like_char, asciiLower. intros H H1 H2.
  apply orb_true_iff in H as [H|H]; [by apply N.eqb_eq in H|].
  apply andb_true_iff in H as [H H3]. apply andb_true_iff in H as [H4 H5].
  apply N.eqb_eq in H3. apply N.ltb_lt in H4, H5.
  destruct (N.leb_spec 65 c), (N.leb_spec c 90), (N.leb_spec 65 x),
    (N.leb_spec x 90); simpl in H3; lia.
Qed.

Lemma contains_nocase_exact q t c :
  contains_nocase q t → c ∈ q → (c < 65 ∨ 90 < c) → (c < 97 ∨ 122 < c) → c ∈ t.
Proof.
  intros (pre & mid & post & -> & Hq) Hc H1 H2.
  rewrite !elem_of_app. right; left.
  induction Hq as [|c' x q' mid' Hx Hq IH]; [by apply elem_of_nil in Hc|].
  apply elem_of_cons in Hc as [->|Hc].
  - apply like_char_exact in Hx; [|done..]. subst. left.
  - right. by apply IH.
Qed.


(** *** What is seen of a text *)

Lemma c_string_id (s : jstring) : NUL ∉ s → c_string s = s.
Proof.
  induction s as [|c s IH]; [done|].
  intros Hs. apply not_elem_of_cons in Hs as [Hc Hs].
  simpl. rewrite (proj2 (N.eqb_neq c NUL)) by done. by rewrite IH.
Qed.

Lemma c_string_prefix (s : jstring) : ∃ rest, s = c_string s ++ rest.
Proof.
  induction s as [|c s [rest IH]]; simpl; [by exists []|].
  destruct (c =? NUL); [by exists (c :: s)|]. exists rest. simpl. by f_equal.
Qed.

Lemma c_string_app_clean (s p : jstring) :
  NUL ∉ s → c_string (s ++ p) = s ++ c_string p.
Proof.
  induction s as [|c s IH]; [done|].
  intros Hs. apply not_elem_of_cons in Hs as [Hc Hs].
  simpl. rewrite (proj2 (N.eqb_neq c NUL)) by done. by rewrite IH.
Qed.

Lemma c_string_app_nul (s p : jstring) :
  NUL ∈ s → c_string (s ++ p) = c_string s.
Proof.
  induction s as [|c s IH]; [by intros ?%elem_of_nil|].
  simpl. destruct (N.eqb_spec c NUL) as [->|Hc]; [done|].
  intros [?|Hs]%elem_of_cons; [done|]. by rewrite IH.
Qed.

Lemma byte_length_app (s p : jstring) :
  byte_length (s ++ p) = byte_length s + byte_length p.
Proof.
  unfold byte_length. induction s as [|c s IH]; simpl; [done|].
  rewrite IH. lia.
Qed.

(** Escaping neither adds nor hides a NUL. *)
Lemma elem_of_escapeLike_nul (q : jstring) : NUL ∈ escapeLike q ↔ NUL ∈ q.
Proof.
  induction q as [|c q IH]; [done|].
  rewrite escapeLike_cons, elem_of_app, IH, elem_of_cons.
  assert (NUL ∈ escapeLike [c] ↔ NUL = c) as ->; [|done].
  unfold escapeLike. simpl flat_map. rewrite app_nil_r.
  destruct ((c =? PERCENT) || (c =? UNDERSCORE) || (c =? BACKSLASH));
    rewrite !elem_of_cons, elem_of_nil; split; auto.
  - intros [H | [H | []]]; [discriminate H|done].
  - intros [H | []]. done.
Qed.

Lemma c_string_escapeLike (q : jstring) :
  c_string (escapeLike q) = escapeLike (c_string q).
Proof.
  induction q as [|c q IH]; [done|].
  rewrite escapeLike_cons.
  change (c_string (c :: q)) with (if c =? NUL then [] else c :: c_string q).
  destruct (N.eqb_spec c NUL) as [->|Hc]; [done|].
  rewrite (escapeLike_cons c (c_string q)), <- IH. apply c_string_app_clean.
  unfold escapeLike. simpl flat_map. rewrite app_nil_r.
  destruct ((c =? PERCENT) || (c =? UNDERSCORE) || (c =? BACKSLASH));
    rewrite ?not_elem_of_cons; repeat split; try done; apply not_elem_of_nil.
Qed.

(** What SQLite sees of the pattern that [fetchWords] builds: the
    closing [%] is lost with everything after a NUL of the query. *)
Lemma c_string_search_pattern (q : jstring) :
  c_string ([PERCENT] ++ escapeLike q ++ [PERCENT])
  = [PERCENT] ++ escapeLike (c_string q)
    ++ (if decide (NUL ∈ q) then [] else [PERCENT]).
Proof.
  change (c_string ([PERCENT] ++ ?p)) with (PERCENT :: c_string p).
  simpl app. f_equal. destruct (decide (NUL ∈ q)) as [Hq|Hq].
  - rewrite c_string_app_nul by (by apply elem_of_escapeLike_nul).
    by rewrite app_nil_r, c_string_escapeLike.
  - rewrite c_string_app_clean by (by rewrite elem_of_escapeLike_nul).
    by rewrite (c_string_id q).
Qed.

(** The texts the search pattern selects: those that hold the query as
    far as its first NUL, and at their end when the query has a NUL. *)
Lemma search_pattern_spec (q s : jstring) :
  patternCompare (Some BACKSLASH)
    (c_string ([PERCENT] ++ escapeLike q ++ [PERCENT])) s = true
  ↔ ∃ pre mid post, s = pre ++ mid ++ post
      ∧ Forall2 (fun c x => like_char c x = true) (c_string q) mid
      ∧ (NUL ∈ q → post = []).
Proof.
  rewrite c_string_search_pattern. destruct (decide (NUL ∈ q)) as [Hq|Hq].
  - simpl app. rewrite like_percent. split.
    + intros (pre & rest & -> & H).
      apply like_escaped in H as (mid & post & -> & Hm & ->%like_nil).
      by exists pre, mid, [].
    + intros (pre & mid & post & -> & Hm & Hpost). rewrite (Hpost Hq).
      exists pre, (mid ++ []). split; [done|]. apply like_escaped.
      exists mid, []. by rewrite like_nil.
  - rewrite like_search_pattern. unfold contains_nocase. split.
    + intros (pre & mid & post & -> & Hm). by exists pre, mid, post.
    + intros (pre & mid & post & -> & Hm & _). by exists pre, mid, post.
Qed.

(** The scan of a WHERE clause whose condition has a value on every
    row is a filter. *)
Lemma sql_where_filter {R : Type} (cond : R → option bool) (rows : list R) :
  (∀ r, r ∈ rows → cond r ≠ None) →
  sql_where cond rows = Some (filter (fun r => cond r = Some true) rows).
Proof.
  induction rows as [|r rows IH]; intros Hc; [done|].
  simpl. rewrite IH by (intros r' Hr'; apply Hc; by right).
  rewrite filter_cons. specialize (Hc r ltac:(left)).
  destruct (cond r) as [[|]|]; [|by rewrite decide_False|done].
  by rewrite decide_True.
Qed.

Lemma sql_where_error {R : Type} (cond : R → option bool) (rows : list R) :
  (∀ r, r ∈ rows → cond r = None) → rows ≠ [] → sql_where cond rows = None.
Proof.
  destruct rows as [|r rows]; [done|]. intros Hc _.
  simpl. by rewrite (Hc r) by left.
Qed.

End LikeFacts.

(** ** server.js: the term repository *)
Module RepositoryFacts.
Import JS Sqlite Server SortFacts LikeFacts.
Local Open Scope nat_scope.

Lemma elem_of_filterBoolean t vs :
  t ∈ filterBoolean vs ↔ t ≠ [] ∧ Some t ∈ vs.
Proof.
  unfold filterBoolean. rewrite list_elem_of_omap. split.
  - intros ([[|c s]|] & Hin & Hv); simpl in Hv; try done.
    injection Hv as <-. done.
  - intros [Hne Hin]. exists (Some t). split; [done|]. by destruct t.
Qed.

Lemma elem_of_order_by {R : Type} coll (key : R → value) rows r :
  r ∈ order_by coll key rows ↔ r ∈ rows.
Proof. unfold order_by. apply elem_of_sort. Qed.

Lemma length_order_by {R : Type} coll (key : R → value) (rows : list R) :
  length (order_by coll key rows) = length rows.
Proof. unfold order_by. apply length_sort. Qed.

Lemma elem_of_stmtListWords db v :
  v ∈ stmtListWords db → v ≠ None ∧ ∃ r, r ∈ db ∧ w r = v.
Proof.
  unfold stmtListWords. rewrite list_elem_of_fmap. intros (r & -> & Hr).
  apply subseteq_take, elem_of_order_by, list_elem_of_filter in Hr as [Hp Hr].
  apply bool_decide_unpack in Hp. eauto.
Qed.

(** The statement throws exactly when there is a row to look at and
    the pattern is too long; otherwise it selects by what is seen of
    pattern and text. *)
Lemma where_like_None pat v :
  where_like (Some BACKSLASH) pat v = None ↔ pattern_too_complex pat = true.
Proof. unfold where_like, like. by destruct v, (pattern_too_complex pat). Qed.

Lemma where_like_true pat v :
  where_like (Some BACKSLASH) pat v = Some true
  ↔ pattern_too_complex pat = false
    ∧ ∃ t, v = Some t
        ∧ patternCompare (Some BACKSLASH) (c_string pat) (c_string t) = true.
Proof.
  unfold where_like, like. destruct (pattern_too_complex pat).
  - split; [by destruct v|]. by intros [? _].
  - destruct v as [t|].
    + split.
      * intros [= H]. eauto.
      * intros [_ (t' & [= <-] & H)]. by rewrite H.
    + split; [done|]. by intros [_ (? & ? & _)].
Qed.

Local Abbreviation selected pat :=
  (fun r : row => where_like (Some BACKSLASH) pat (w r) = Some true).

Lemma stmtSearchWords_within db pat :
  pattern_too_complex pat = false →
  stmtSearchWords db pat
  = Some (w <$> take LIMIT (order_by nocase w (filter (selected pat) db))).
Proof.
  intros Hp. unfold stmtSearchWords.
  rewrite sql_where_filter; [done|].
  intros r _ Hn. apply where_like_None in Hn. by rewrite Hp in Hn.
Qed.

Lemma stmtSearchWords_None db pat :
  stmtSearchWords db pat = None ↔ db ≠ [] ∧ pattern_too_complex pat = true.
Proof.
  destruct (pattern_too_complex pat) eqn:Hp.
  - destruct db as [|r db].
    + split; [done|]. by intros [? _].
    + unfold stmtSearchWords. rewrite sql_where_error; [done| |done].
      intros r' _. by apply where_like_None.
  - rewrite stmtSearchWords_within by done. split; [done|]. by intros [_ ?].
Qed.

Lemma stmtSearchWords_Some db pat rows :
  stmtSearchWords db pat = Some rows →
  rows = w <$> take LIMIT (order_by nocase w (filter (selected pat) db)).
Proof.
  destruct (pattern_too_complex pat) eqn:Hp.
  - destruct db as [|r db]; [by intros [= <-]|].
    intros H. assert (stmtSearchWords (r :: db) pat = None) as Hn.
    { by apply stmtSearchWords_None. }
    by rewrite Hn in H.
  - rewrite stmtSearchWords_within by done. by intros [= <-].
Qed.

Lemma elem_of_stmtSearchWords db pat rows v :
  stmtSearchWords db pat = Some rows → v ∈ rows →
  ∃ r t, r ∈ db ∧ w r = v ∧ v = Some t
    ∧ patternCompare (Some BACKSLASH) (c_string pat) (c_string t) = true.
Proof.
  intros ->%stmtSearchWords_Some. rewrite list_elem_of_fmap. intros (r & -> & Hr).
  apply subseteq_take, elem_of_order_by, list_elem_of_filter in Hr as [Hp Hr].
  apply where_like_true in Hp as (_ & t & Hw & Hp). exists r, t. by rewrite Hw.
Qed.

Lemma length_stmtListWords db : length (stmtListWords db) ≤ LIMIT.
Proof. unfold stmtListWords. rewrite length_fmap, length_take. lia. Qed.

Lemma length_stmtSearchWords db pat rows :
  stmtSearchWords db pat = Some rows → length rows ≤ LIMIT.
Proof. intros ->%stmtSearchWords_Some. rewrite length_fmap, length_take. lia. Qed.

Lemma length_filterBoolean vs : length (filterBoolean vs) ≤ length vs.
Proof.
  unfold filterBoolean. induction vs as [|v vs IH]; csimpl; [done|].
  destruct (truthy_opt v); [destruct v|]; csimpl; lia.
Qed.

(** A text holds what a match finds in the part of it that is seen. *)
Lemma contains_seen (q t : jstring) :
  patternCompare (Some BACKSLASH)
    (c_string ([PERCENT] ++ escapeLike q ++ [PERCENT])) (c_string t) = true →
  contains_nocase (c_string q) t.
Proof.
  intros (pre & mid & post & Ht & Hm & _)%search_pattern_spec.
  destruct (c_string_prefix t) as [rest Hrest].
  exists pre, mid, (post ++ rest). split; [|done].
  rewrite Hrest at 1. rewrite Ht. by rewrite <- !app_assoc.
Qed.

Section Repository.
Variable toLowerCase : jstring → jstring.
Variable localeCompare : jstring → jstring → Z.

Local Abbreviation fetchWords := (fetchWords toLowerCase localeCompare).
Local Abbreviation compareWords := (compareWords toLowerCase localeCompare).

Lemma fetchWords_list db :
  fetchWords db [] = Some (sort compareWords (filterBoolean (stmtListWords db))).
Proof. reflexivity. Qed.

Lemma fetchWords_search db q :
  q ≠ [] →
  fetchWords db q
  = match stmtSearchWords db ([PERCENT] ++ escapeLike q ++ [PERCENT]) with
    | None => None
    | Some rows => Some (sort compareWords (filterBoolean rows))
    end.
Proof. by destruct q. Qed.

(** [fetchWords] throws exactly when the statement does. *)
Lemma fetchWords_None db q :
  fetchWords db q = None
  ↔ q ≠ [] ∧ db ≠ []
    ∧ pattern_too_complex ([PERCENT] ++ escapeLike q ++ [PERCENT]) = true.
Proof.
  destruct q as [|c q]; [split; [done|by intros [? _]]|].
  rewrite fetchWords_search by done.
  destruct (stmtSearchWords _ _) as [rows|] eqn:Hs.
  - split; [done|]. intros (_ & Hdb & Hp).
    assert (stmtSearchWords db ([PERCENT] ++ escapeLike (c :: q) ++ [PERCENT]) = None)
      as Hn by by apply stmtSearchWords_None.
    by rewrite Hn in Hs.
  - apply stmtSearchWords_None in Hs as [? ?]. done.
Qed.

Lemma fetchWords_search_within db q :
  q ≠ [] → pattern_too_complex ([PERCENT] ++ escapeLike q ++ [PERCENT]) = false →
  fetchWords db q
  = Some (sort compareWords (filterBoolean (w <$> take LIMIT (order_by nocase w
            (filter (selected ([PERCENT] ++ escapeLike q ++ [PERCENT])) db))))).
Proof. intros Hq Hp. by rewrite fetchWords_search, stmtSearchWords_within. Qed.

(** Where each returned word comes from. *)
Lemma elem_of_fetchWords_list db words t :
  fetchWords db [] = Some words → t ∈ words →
  t ≠ [] ∧ ∃ r, r ∈ db ∧ w r = Some t.
Proof.
  rewrite fetchWords_list. intros [= <-].
  rewrite elem_of_sort, elem_of_filterBoolean.
  intros [Hne Hin]. split; [done|].
  apply elem_of_stmtListWords in Hin as [_ Hr]. done.
Qed.

Lemma elem_of_fetchWords_search db q words t :
  q ≠ [] → fetchWords db q = Some words → t ∈ words →
  t ≠ [] ∧ (∃ r, r ∈ db ∧ w r = Some t)
  ∧ patternCompare (Some BACKSLASH)
      (c_string ([PERCENT] ++ escapeLike q ++ [PERCENT])) (c_string t) = true.
Proof.
  intros Hq. rewrite fetchWords_search by done.
  destruct (stmtSearchWords _ _) as [rows|] eqn:Hs; [|done]. intros [= <-].
  rewrite elem_of_sort, elem_of_filterBoolean. intros [Hne Hin]. split; [done|].
  apply (elem_of_stmtSearchWords _ _ _ _ Hs) in Hin
    as (r & t' & Hr & Hw & [= <-] & Hlike).
  split; [eauto|done].
Qed.

Lemma elem_of_fetchWords db q words t :
  fetchWords db q = Some words → t ∈ words →
  t ≠ [] ∧ ∃ r, r ∈ db ∧ w r = Some t.
Proof.
  destruct q as [|c q]; [apply elem_of_fetchWords_list|].
  intros Hf Ht.
  assert (c :: q ≠ []) as Hq by done.
  apply (elem_of_fetchWords_search _ _ _ _ Hq Hf) in Ht as (? & ? & _). done.
Qed.

Lemma length_fetchWords db q words :
  fetchWords db q = Some words → length words ≤ LIMIT.
Proof.
  destruct q as [|c q].
  - rewrite fetchWords_list. intros [= <-]. rewrite length_sort.
    etrans; [apply length_filterBoolean|apply length_stmtListWords].
  - rewrite fetchWords_search by done.
    destruct (stmtSearchWords _ _) as [rows|] eqn:Hs; [|done]. intros [= <-].
    rewrite length_sort.
    etrans; [apply length_filterBoolean|by eapply length_stmtSearchWords].
Qed.

Section Consistent.
Hypothesis localeCompare_total :
  ∀ x y, (0 < localeCompare x y)%Z → (localeCompare y x <= 0)%Z.
Hypothesis localeCompare_trans :
  ∀ x y z, (localeCompare x y <= 0)%Z → (localeCompare y z <= 0)%Z →
    (localeCompare x z <= 0)%Z.

Lemma fetchWords_sorted db q words :
  fetchWords db q = Some words →
  StronglySorted (ascending compareWords) words.
Proof using localeCompare_total localeCompare_trans.
  destruct q as [|c q].
  - rewrite fetchWords_list. intros [= <-].
    apply sort_sorted; unfold Server.compareWords; eauto.
  - rewrite fetchWords_search by done.
    destruct (stmtSearchWords _ _) as [rows|]; [|done]. intros [= <-].
    apply sort_sorted; unfold Server.compareWords; eauto.
Qed.
End Consistent.

End Repository.


(** C3, as the code has it: whatever the query, the returned sequence is
    ascending for the comparison the host's [localeCompare] makes of the
    lower-cased terms (for every host comparison that is consistent: a
    total preorder).  A sequence is returned unless the statement
    throws, which it does only for a search whose pattern is longer than
    SQLite allows, on a table that has rows. *)
Theorem fetchWords_ascending_by_localeCompare
    (toLowerCase : jstring → jstring) (localeCompare : jstring → jstring → Z)
    (db : list row) (search : jstring) :
  (∀ x y, (0 < localeCompare x y)%Z → (localeCompare y x <= 0)%Z) →
  (∀ x y z, (localeCompare x y <= 0)%Z → (localeCompare y z <= 0)%Z →
     (localeCompare x z <= 0)%Z) →
  match fetchWords toLowerCase localeCompare db search with
  | Some words =>
      StronglySorted
        (fun x y => (localeCompare (toLowerCase x) (toLowerCase y) <= 0)%Z) words
  | None =>
      search ≠ [] ∧ db ≠ []
      ∧ pattern_too_complex ([PERCENT] ++ escapeLike search ++ [PERCENT]) = true
  end.
Proof.
  intros Htot Htrans.
  destruct (fetchWords toLowerCase localeCompare db search) as [words|] eqn:Hf.
  - by apply (fetchWords_sorted _ _ Htot Htrans db search).
  - by apply fetchWords_None in Hf.
Qed.

Lemma fetchWords_ascending_by_localeCompare_witness :
  ∃ words,
    fetchWords toLowerASCII Samples.umlautCompare Samples.db2 [] = Some words
    ∧ StronglySorted
        (fun x y => (Samples.umlautCompare (toLowerASCII x) (toLowerASCII y) <= 0)%Z)
        words.
Proof.
  exists [[228%N]; lit "z"]. split; [reflexivity|].
  apply (fetchWords_ascending_by_localeCompare toLowerASCII Samples.umlautCompare
           Samples.db2 []); unfold Samples.umlautCompare.
  - intros x y. apply ordinalCompare_total.
  - intros x y z. apply ordinalCompare_trans.
Defined.

(** C3 as stated fails: on a host whose collation files a-umlaut before
    z, the terms "z" and a-umlaut come back as a-umlaut, "z", which is
    descending for the ordinal comparison of the lower-cased terms.  The
    same holds on every host for which ["z".localeCompare(a-umlaut)] is
    positive. *)
Lemma fetchWords_not_ordinal :
  fetchWords toLowerASCII Samples.umlautCompare Samples.db2 []
  = Some [[228%N]; lit "z"]
  ∧ ¬ StronglySorted
        (fun x y => (ordinalCompare (toLowerASCII x) (toLowerASCII y) <= 0)%Z)
        [[228%N]; lit "z"]
  ∧ (∀ (toLowerCase : jstring → jstring) (localeCompare : jstring → jstring → Z),
       toLowerCase (lit "z") = lit "z" → toLowerCase [228%N] = [228%N] →
       (0 < localeCompare (lit "z") [228%N])%Z →
       fetchWords toLowerCase localeCompare Samples.db2 []
       = Some [[228%N]; lit "z"]).
Proof.
  split; [reflexivity|]. split.
  - intros H.
    apply StronglySorted_cons in H as [H _].
    apply Forall_cons in H as [H _]. vm_compute in H. by apply H.
  - intros toLowerCase localeCompare Hz Ha Hpos.
    change (fetchWords toLowerCase localeCompare Samples.db2 [])
      with (Some (sort (compareWords toLowerCase localeCompare) [lit "z"; [228%N]])).
    cbn [sort sort_insert]. unfold compareWords. rewrite Hz, Ha.
    destruct (Z.leb_spec (localeCompare (lit "z") [228%N]) 0); [lia|done].
Qed.

(** C4 fails on the code at the query that is one NUL character: what
    SQLite sees of the pattern [%], NUL, [%] is [%], so every term of
    the table that is neither NULL nor empty is returned (on every
    host, in the order of its collation), and none of them contains the
    query.  [escapeLike] escapes [%], [_] and the backslash and lets
    NUL through. *)
Theorem search_nul_query_returns_every_term :
  fetchWords toLowerASCII ordinalCompare Samples.db1 [NUL]
  = Some [lit "50%"; lit "500 rpm"; lit "Beam"; lit "Torque"]
  ∧ fetchWords toLowerASCII ordinalCompare Samples.db1 [NUL]
    = fetchWords toLowerASCII ordinalCompare Samples.db1 []
  ∧ (∀ (toLowerCase : jstring → jstring) (localeCompare : jstring → jstring → Z),
       ∃ words, fetchWords toLowerCase localeCompare Samples.db1 [NUL] = Some words
         ∧ words ≡ₚ [lit "50%"; lit "500 rpm"; lit "Beam"; lit "Torque"])
  ∧ ∀ t, t ∈ [lit "50%"; lit "500 rpm"; lit "Beam"; lit "Torque"] →
      ¬ contains_nocase [NUL] t.
Proof.
  split; [reflexivity|]. split; [reflexivity|]. split.
  { intros toLowerCase localeCompare. eexists. split.
    - apply fetchWords_search_within; [discriminate|reflexivity].
    - rewrite sort_perm. vm_compute. reflexivity. }
  intros t Ht Hc.
  assert (NUL ∈ t) as Hin.
  { apply (contains_nocase_exact [NUL] t NUL Hc); [left|by left..]. }
  repeat (apply elem_of_cons in Ht as [-> | Ht];
          [by vm_compute in Hin; repeat (apply elem_of_cons in Hin as [Hin | Hin];
                                         [discriminate Hin|]);
              apply elem_of_nil in Hin|]).
  by apply elem_of_nil in Ht.
Qed.

(** C5 fails on the code at the query NUL, [%]: SQLite sees the pattern
    [%] only, which matches every text, so the terms without a percent
    sign are returned too, where the query [%] alone returns the one
    term that has the sign.  The slip is the one of C4: [escapeLike]
    lets NUL through. *)
Theorem search_nul_percent_query_not_literal :
  fetchWords toLowerASCII ordinalCompare Samples.db1 [NUL; PERCENT]
  = Some [lit "50%"; lit "500 rpm"; lit "Beam"; lit "Torque"]
  ∧ (∀ (toLowerCase : jstring → jstring) (localeCompare : jstring → jstring → Z),
       ∃ words,
         fetchWords toLowerCase localeCompare Samples.db1 [NUL; PERCENT] = Some words
         ∧ lit "Beam" ∈ words)
  ∧ PERCENT ∈ [NUL; PERCENT]
  ∧ (PERCENT ∉ lit "Beam")
  ∧ ¬ contains_nocase [NUL; PERCENT] (lit "Beam")
  ∧ fetchWords toLowerASCII ordinalCompare Samples.db1 [PERCENT]
    = Some [lit "50%"].
Proof.
  split; [reflexivity|]. split.
  { intros toLowerCase localeCompare. eexists. split.
    - apply fetchWords_search_within; [discriminate|reflexivity].
    - rewrite elem_of_sort. vm_compute. do 2 right. left. }
  split; [by right; left|].
  assert (PERCENT ∉ lit "Beam") as Hno.
  { intros Hin. vm_compute in Hin.
    repeat (apply elem_of_cons in Hin as [Hin | Hin]; [discriminate Hin|]).
    by apply elem_of_nil in Hin. }
  split; [done|]. split; [|reflexivity].
  intros Hc. apply Hno.
  apply (contains_nocase_exact [NUL; PERCENT] _ PERCENT Hc); [by right; left|by left..].
Qed.




(** C10: a row whose term is the empty string (or NULL) never appears in
    the result, with or without a query: whenever a sequence is
    returned (always, but for a search whose statement throws), the
    empty string is not in it and every entry is the non-empty term of
    a row. *)
Theorem fetchWords_excludes_empty_terms
    (toLowerCase : jstring → jstring) (localeCompare : jstring → jstring → Z)
    (db : list row) (search : jstring) :
  match fetchWords toLowerCase localeCompare db search with
  | Some words =>
      ([] ∉ words)
      ∧ (∀ t, t ∈ words → ∃ r c s, r ∈ db ∧ w r = Some t ∧ t = c :: s)
  | None =>
      search ≠ [] ∧ db ≠ []
      ∧ pattern_too_complex ([PERCENT] ++ escapeLike search ++ [PERCENT]) = true
  end.
Proof.
  destruct (fetchWords toLowerCase localeCompare db search) as [words|] eqn:Hf;
    [|by apply fetchWords_None in Hf].
  pose proof (fun t => elem_of_fetchWords toLowerCase localeCompare db search
                        words t Hf) as H.
  split.
  - intros Hin. by apply H in Hin as [? _].
  - intros [|c s] Ht; apply H in Ht as [Hne (r & Hr & Hw)]; [done|].
    by exists r, c, s.
Qed.



End RepositoryFacts.

(** ** The front-end script: the pronunciation plan *)
Module AudioFacts.
Import JS Client.
Local Open Scope nat_scope.

Lemma nonempty_rev (cur : jstring) : 0 < length (rev cur) ↔ cur ≠ [].
Proof. rewrite length_rev. destruct cur; simpl; split; intros; try done; lia. Qed.

(** Dropping the empty pieces of [split] leaves the runs of
    non-whitespace characters. *)
Lemma filter_split_ws_from s : ∀ inRun cur,
  (inRun = true → cur = []) →
  filter (fun url : jstring => 0 < length url) (split_ws_from inRun cur s)
  = spec_tokens cur s.
Proof.
  induction s as [|c r IH]; intros inRun cur Hrun; simpl.
  - rewrite filter_cons, filter_nil. destruct (decide _) as [H|H].
    + apply nonempty_rev in H. by destruct cur.
    + destruct cur as [|x cur]; [done|]. exfalso. apply H, nonempty_rev. done.
  - destruct (isWhiteSpace c).
    + destruct inRun.
      * rewrite (Hrun eq_refl). by apply IH.
      * rewrite filter_cons, (IH true []) by done. destruct (decide _) as [H|H].
        -- apply nonempty_rev in H. by destruct cur.
        -- destruct cur as [|x cur]; [done|]. exfalso. apply H, nonempty_rev. done.
    + by apply IH.
Qed.

Lemma dropWhile_split p (s : jstring) :
  ∃ pre, s = pre ++ dropWhile p s ∧ Forall (fun c => p c = true) pre.
Proof.
  induction s as [|c r (pre & Hr & Hpre)]; simpl.
  - by exists [].
  - destruct (p c) eqn:Hc.
    + exists (c :: pre). split; [by rewrite <- app_comm_cons, <- Hr|by constructor].
    + by exists [].
Qed.

Lemma trimEnd_split (s : jstring) :
  ∃ run, s = trimEnd s ++ run ∧ Forall (fun c => isWhiteSpace c = true) run.
Proof.
  unfold trimEnd. destruct (dropWhile_split isWhiteSpace (rev s)) as (pre & Hs & Hpre).
  exists (rev pre). split.
  - rewrite <- rev_app_distr, <- Hs. by rewrite rev_involutive.
  - by apply Forall_rev.
Qed.

Lemma spec_tokens_whitespace run : ∀ cur,
  Forall (fun c => isWhiteSpace c = true) run →
  spec_tokens cur run = spec_tokens cur [].
Proof.
  induction run as [|c r IH]; intros cur Hrun; [done|].
  apply Forall_cons in Hrun as [Hc Hr]. simpl. rewrite Hc.
  destruct cur; rewrite (IH [] Hr); done.
Qed.

Lemma spec_tokens_app_whitespace s : ∀ cur run,
  Forall (fun c => isWhiteSpace c = true) run →
  spec_tokens cur (s ++ run) = spec_tokens cur s.
Proof.
  induction s as [|c r IH]; intros cur run Hrun.
  - by apply spec_tokens_whitespace.
  - simpl. destruct (isWhiteSpace c); [destruct cur|]; by rewrite IH.
Qed.

Lemma spec_tokens_trimStart s : spec_tokens [] (trimStart s) = spec_tokens [] s.
Proof.
  unfold trimStart. induction s as [|c r IH]; simpl; [done|].
  destruct (isWhiteSpace c) eqn:Hc; [done|]. simpl. by rewrite Hc.
Qed.

Lemma spec_tokens_trim s : spec_tokens [] (trim s) = spec_tokens [] s.
Proof.
  unfold trim. destruct (trimEnd_split (trimStart s)) as (run & Hs & Hrun).
  rewrite <- (spec_tokens_app_whitespace (trimEnd (trimStart s)) [] run Hrun).
  rewrite <- Hs. apply spec_tokens_trimStart.
Qed.

Lemma audioUrls_spec s : audioUrls s = spec_tokens [] s.
Proof.
  unfold audioUrls, split_ws. rewrite filter_split_ws_from by done.
  apply spec_tokens_trim.
Qed.

(** The runs are non-empty, free of whitespace, and their
    concatenation is the text without its whitespace. *)
Lemma spec_tokens_shape s : ∀ cur,
  Forall (fun c => isWhiteSpace c = false) cur →
  Forall (fun t : jstring => t ≠ [] ∧ Forall (fun c => isWhiteSpace c = false) t)
    (spec_tokens cur s)
  ∧ concat (spec_tokens cur s)
    = rev cur ++ filter (fun c => isWhiteSpace c = false) s.
Proof.
  induction s as [|c r IH]; intros cur Hcur; cbn [spec_tokens].
  - destruct cur as [|x cur]; [by split; [constructor|]|].
    split; [|simpl; by rewrite !app_nil_r].
    constructor; [|constructor]. split; [|by apply Forall_rev].
    intros H. apply (f_equal length) in H. rewrite length_rev in H. done.
  - rewrite filter_cons. destruct (isWhiteSpace c) eqn:Hc.
    + destruct (decide _) as [?|_]; [done|].
      destruct (IH [] (Forall_nil_2 _)) as [IH1 IH2].
      destruct cur as [|x cur]; [by rewrite IH2|].
      split; [|simpl; by rewrite IH2].
      constructor; [|done]. split; [|by apply Forall_rev].
      intros H. apply (f_equal length) in H. rewrite length_rev in H. done.
    + destruct (decide _) as [_|?]; [|done].
      destruct (IH (c :: cur)) as [IH1 IH2]; [by constructor|].
      split; [done|]. rewrite IH2. simpl. by rewrite <- app_assoc.
Qed.

(** C9: the plan is the sequence of maximal runs of non-whitespace
    characters of the audio reference, in their order; nothing but
    whitespace is dropped; the inputs of the specification give the
    results it names, and a NULL, empty or blank reference gives the
    empty plan. *)
Theorem playbackPlan_splits_on_whitespace :
  (∀ audioRef, playbackPlan audioRef = spec_buildPlan audioRef)
  ∧ (∀ audioRef,
       Forall (fun t : jstring => t ≠ [] ∧ Forall (fun c => isWhiteSpace c = false) t)
         (playbackPlan audioRef))
  ∧ (∀ s, concat (playbackPlan (Some s)) = filter (fun c => isWhiteSpace c = false) s)
  ∧ playbackPlan (Some (lit "a.mp3  b.mp3   c.mp3"))
    = [lit "a.mp3"; lit "b.mp3"; lit "c.mp3"]
  ∧ playbackPlan (Some (lit "   ")) = []
  ∧ playbackPlan (Some []) = []
  ∧ playbackPlan None = [].
Proof.
  assert (∀ audioRef, playbackPlan audioRef = spec_buildPlan audioRef) as Hspec.
  { intros [s|]; [|done]. unfold playbackPlan, spec_buildPlan.
    destruct s as [|c s]; [done|]. cbn [truthy]. apply audioUrls_spec. }
  split; [done|]. split; [|split].
  - intros [s|]; rewrite Hspec; simpl; [|constructor].
    by apply spec_tokens_shape.
  - intros s. rewrite Hspec. simpl.
    by destruct (spec_tokens_shape s [] (Forall_nil_2 _)) as [_ ->].
  - repeat split; reflexivity.
Qed.

End AudioFacts.

(** ** The front-end script: tokens and their occurrences *)
Module TokenFacts.
Import JS Client.
Local Open Scope nat_scope.

Lemma starts_with_nil_r (t : jstring) : t ≠ [] → starts_with t [] = false.
Proof. by destruct t. Qed.

Lemma starts_with_self (t X : jstring) : starts_with t (t ++ X) = true.
Proof. induction t as [|x t IH]; simpl; [done|]. by rewrite N.eqb_refl. Qed.

Lemma starts_with_app_same (p u v : jstring) :
  starts_with (p ++ u) (p ++ v) = starts_with u v.
Proof. induction p as [|x p IH]; simpl; [done|]. by rewrite N.eqb_refl. Qed.

(** A token cannot run over a character it does not contain. *)
Lemma starts_with_app (u : jstring) : ∀ a X : jstring,
  (∀ c X', X = c :: X' → c ∉ u) →
  starts_with u (a ++ X) = starts_with u a.
Proof.
  induction u as [|x u IH]; intros a X HX; [by destruct a, X|].
  destruct a as [|c a]; simpl.
  - destruct X as [|c X']; [done|].
    specialize (HX c X' eq_refl). apply not_elem_of_cons in HX as [Hc _].
    by rewrite (proj2 (N.eqb_neq x c)).
  - f_equal. apply IH. intros c' X' ->.
    specialize (HX c' X' eq_refl). by apply not_elem_of_cons in HX as [_ ?].
Qed.

Lemma occurrences_nil (t : jstring) : t ≠ [] → occurrences t [] = 0.
Proof. by destruct t. Qed.

(** Occurrences add up over a cut in front of a character that the
    token has at most at its start. *)
Lemma occurrences_app (h : N) (t' a X : jstring) :
  (∀ c X', X = c :: X' → c ∉ t') →
  occurrences (h :: t') (a ++ X) = occurrences (h :: t') a + occurrences (h :: t') X.
Proof.
  intros HX. induction a as [|c a IH]; [done|].
  rewrite <- app_comm_cons. cbn [occurrences]. rewrite IH.
  cbn [starts_with]. rewrite (starts_with_app t' a X HX). lia.
Qed.

(** No occurrence starts inside a stretch without the first character
    of the token. *)
Lemma occurrences_skip (h : N) (t' a X : jstring) :
  h ∉ a → occurrences (h :: t') (a ++ X) = occurrences (h :: t') X.
Proof.
  induction a as [|c a IH]; intros Ha; [done|].
  apply not_elem_of_cons in Ha as [Hc Ha].
  rewrite <- app_comm_cons. cbn [occurrences starts_with].
  rewrite (proj2 (N.eqb_neq h c)) by done. simpl. by apply IH.
Qed.

Lemma occurrences_none (h : N) (t' a : jstring) :
  h ∉ a → occurrences (h :: t') a = 0.
Proof.
  intros Ha. rewrite <- (app_nil_r a), occurrences_skip by done. done.
Qed.

(** *** The placeholder tokens *)

Lemma uint_chars_digit d : Forall (fun c => (48 ≤ c ≤ 57)%N) (uint_chars d).
Proof. induction d; simpl; constructor; (lia || done). Qed.

Lemma uint_chars_inj d1 : ∀ d2, uint_chars d1 = uint_chars d2 → d1 = d2.
Proof.
  induction d1; intros []; simpl; intros H; try discriminate H; try done;
    injection H as H; f_equal; by apply IHd1.
Qed.

Lemma decimal_inj i j : decimal i = decimal j → i = j.
Proof. intros H. by apply Unsigned.to_uint_inj, uint_chars_inj. Qed.

Lemma digit_not_whitespace c : (48 ≤ c ≤ 57)%N → isWhiteSpace c = false.
Proof.
  intros Hc. unfold isWhiteSpace.
  repeat match goal with
  | |- context [N.eqb c ?k] => rewrite (proj2 (N.eqb_neq c k)) by lia
  end.
  by rewrite (proj2 (N.leb_gt 8192 c)) by lia.
Qed.

(** Two runs of digits that end at a dash and agree are the same run. *)
Lemma digit_run (D1 : jstring) : ∀ (D2 S1 S2 : jstring),
  Forall (fun c => (48 ≤ c ≤ 57)%N) D1 → Forall (fun c => (48 ≤ c ≤ 57)%N) D2 →
  starts_with (D1 ++ 45%N :: S1) (D2 ++ 45%N :: S2) = true → D1 = D2.
Proof.
  induction D1 as [|x D1 IH]; intros [|d D2] S1 S2 H1 H2;
    cbn [starts_with app]; intros H.
  - done.
  - apply Forall_cons in H2 as [Hd _]. apply andb_true_iff in H as [H _].
    apply N.eqb_eq in H. lia.
  - apply Forall_cons in H1 as [Hx _]. apply andb_true_iff in H as [H _].
    apply N.eqb_eq in H. lia.
  - apply Forall_cons in H1 as [_ H1], H2 as [_ H2].
    apply andb_true_iff in H as [Hx H]. apply N.eqb_eq in Hx as ->.
    f_equal. by eapply IH.
Qed.

Lemma placeholder_cons j :
  placeholder j = LT :: (lit "!--knt-math-p" ++ decimal j ++ lit "-->").
Proof. reflexivity. Qed.

(** The rest of a placeholder has no [<], no dollar and no whitespace. *)
Lemma placeholder_tail_clean j c :
  c ∈ lit "!--knt-math-p" ++ decimal j ++ lit "-->" →
  c ≠ LT ∧ c ≠ DOLLAR ∧ isWhiteSpace c = false.
Proof.
  rewrite !elem_of_app. intros [H|[H|H]].
  - vm_compute in H.
    repeat (apply elem_of_cons in H as [-> | H]; [by vm_compute|]).
    by apply elem_of_nil in H.
  - pose proof (uint_chars_digit (Nat.to_uint j)) as Hd.
    rewrite Forall_forall in Hd. specialize (Hd c H).
    split; [unfold LT; lia|]. split; [unfold DOLLAR; lia|].
    by apply digit_not_whitespace.
  - vm_compute in H.
    repeat (apply elem_of_cons in H as [-> | H]; [by vm_compute|]).
    by apply elem_of_nil in H.
Qed.

Lemma starts_with_placeholder i j (X : jstring) :
  starts_with (placeholder j) (placeholder i ++ X) = bool_decide (i = j).
Proof.
  case_bool_decide as Hij.
  - subst. apply starts_with_self.
  - apply not_true_is_false. intros H. apply Hij. symmetry. apply decimal_inj.
    unfold placeholder in H. rewrite <- !app_assoc, starts_with_app_same in H.
    apply digit_run in H; [done|apply uint_chars_digit..].
Qed.

(** A placeholder put in front of a text adds one occurrence of itself
    and none of another placeholder. *)
Lemma occurrences_placeholder i j (X : jstring) :
  occurrences (placeholder j) (placeholder i ++ X)
  = (if bool_decide (i = j) then 1 else 0) + occurrences (placeholder j) X.
Proof.
  rewrite (placeholder_cons i), <- app_comm_cons. cbn [occurrences].
  rewrite app_comm_cons, <- (placeholder_cons i), starts_with_placeholder.
  f_equal. rewrite (placeholder_cons j). apply occurrences_skip.
  intros H. by apply placeholder_tail_clean in H as [? _].
Qed.

(** Cutting at a dollar, or at leading or trailing whitespace, loses no
    occurrence of a placeholder. *)
Lemma occurrences_app_dollar j (a R : jstring) :
  occurrences (placeholder j) (a ++ DOLLAR :: R)
  = occurrences (placeholder j) a + occurrences (placeholder j) R.
Proof.
  rewrite (placeholder_cons j), occurrences_app.
  - reflexivity.
  - intros c X' [= <- <-] H. by apply placeholder_tail_clean in H as (_ & ? & _).
Qed.

Lemma occurrences_delimited j (dl f R : jstring) :
  Forall (fun c => c = DOLLAR) dl → dl ≠ [] →
  occurrences (placeholder j) (dl ++ f ++ dl ++ R)
  = occurrences (placeholder j) f + occurrences (placeholder j) R.
Proof.
  intros Hdl Hne.
  assert (LT ∉ dl) as Hlt.
  { intros H. rewrite Forall_forall in Hdl. by apply Hdl in H. }
  rewrite (placeholder_cons j), occurrences_skip by done.
  rewrite <- (placeholder_cons j).
  destruct dl as [|d dl']; [done|]. apply Forall_cons in Hdl as [-> Hdl'].
  rewrite <- app_comm_cons, occurrences_app_dollar. f_equal.
  rewrite (placeholder_cons j). apply occurrences_skip.
  intros H. apply Hlt. by right.
Qed.

Lemma occurrences_trim j (f : jstring) :
  occurrences (placeholder j) (trim f) = occurrences (placeholder j) f.
Proof.
  assert (∀ run : jstring, Forall (fun c => isWhiteSpace c = true) run → LT ∉ run) as Hrun.
  { intros run Hr H. rewrite Forall_forall in Hr. by apply Hr in H. }
  unfold trim.
  destruct (AudioFacts.trimEnd_split (trimStart f)) as (run & Hs & Hr).
  destruct (AudioFacts.dropWhile_split isWhiteSpace f) as (pre & Hf & Hpre).
  fold (trimStart f) in Hf.
  rewrite Hf at 2. rewrite Hs at 2. rewrite (placeholder_cons j).
  rewrite occurrences_skip by auto. rewrite occurrences_app.
  - rewrite (occurrences_none _ _ run) by auto. lia.
  - intros c X' -> H. apply Forall_cons in Hr as [Hc _].
    apply placeholder_tail_clean in H as (_ & _ & H). congruence.
Qed.

Lemma formula_occurrences_app t (a b : list (option replacement)) :
  formula_occurrences t (a ++ b) = formula_occurrences t a + formula_occurrences t b.
Proof.
  unfold formula_occurrences. induction a as [|o a IH]; simpl; [done|].
  rewrite IH. lia.
Qed.

End TokenFacts.

(** ** The front-end script: stashing math *)
Module RenderFacts.
Import JS Client TokenFacts.
Local Open Scope nat_scope.

Lemma array_set_push {A : Type} (v : A) (reps : list (option A)) :
  array_set (length reps) v reps = reps ++ [Some v].
Proof.
  unfold array_set. destruct (decide _) as [H|_]; [lia|].
  by rewrite Nat.sub_diag.
Qed.

(** *** The two regular expressions *)

Lemma lazyUntilClose_Some (r : jstring) : ∀ f,
  lazyUntilClose r = Some f → ∃ R, r = f ++ DOLLAR :: DOLLAR :: R.
Proof.
  induction r as [|c r IH]; intros f; simpl; [done|].
  destruct ((c =? DOLLAR)%N && _) eqn:Hc.
  - intros [= <-]. apply andb_true_iff in Hc as [Hc Hd].
    apply N.eqb_eq in Hc as ->. destruct r as [|d R]; [done|].
    apply N.eqb_eq in Hd as ->. by exists R.
  - destruct (lazyUntilClose r) as [f'|]; [|done]. intros [= <-].
    destruct (IH f' eq_refl) as [R ->]. by exists R.
Qed.

Lemma matchDisplay_shape (s f : jstring) len :
  matchDisplay s = Some (f, len) →
  ∃ dl R, s = dl ++ f ++ dl ++ R ∧ len = length (dl ++ f ++ dl)
    ∧ dl ≠ [] ∧ Forall (fun c => c = DOLLAR) dl.
Proof.
  unfold matchDisplay. destruct s as [|c [|d r]]; [done..|].
  destruct ((c =? DOLLAR)%N && (d =? DOLLAR)%N) eqn:Hc; [|done].
  apply andb_true_iff in Hc as [->%N.eqb_eq ->%N.eqb_eq].
  destruct (lazyUntilClose r) as [f'|] eqn:Hr; [|done]. intros [= <- <-].
  apply lazyUntilClose_Some in Hr as [R ->].
  exists [DOLLAR; DOLLAR], R. repeat split; [|done|by repeat constructor].
  rewrite !length_app. simpl. lia.
Qed.

Lemma spanNoDollar_spec (r : jstring) :
  r = (spanNoDollar r).1 ++ (spanNoDollar r).2
  ∧ ((spanNoDollar r).2 = [] ∨ ∃ R, (spanNoDollar r).2 = DOLLAR :: R).
Proof.
  induction r as [|c r [IH1 IH2]]; simpl; [by split; [|left]|].
  destruct (N.eqb_spec c DOLLAR) as [->|_]; simpl.
  - split; [done|]. right. by eexists.
  - destruct (spanNoDollar r) as [f rest]. simpl in *. by rewrite <- IH1.
Qed.

Lemma matchInline_shape (s f : jstring) len :
  matchInline s = Some (f, len) →
  ∃ dl R, s = dl ++ f ++ dl ++ R ∧ len = length (dl ++ f ++ dl)
    ∧ dl ≠ [] ∧ Forall (fun c => c = DOLLAR) dl.
Proof.
  unfold matchInline. destruct s as [|c r]; [done|].
  destruct (N.eqb_spec c DOLLAR) as [->|_]; [|done].
  destruct (spanNoDollar_spec r) as [Hr Hrest].
  destruct (spanNoDollar r) as [f' rest]. simpl in *.
  destruct (truthy f' && truthy rest) eqn:Ht; [|done]. intros [= <- <-].
  apply andb_true_iff in Ht as [_ Ht].
  destruct Hrest as [->|[R ->]]; [done|].
  exists [DOLLAR], R. repeat split; [by rewrite Hr|..|done|by repeat constructor].
  rewrite !length_app. simpl. lia.
Qed.

(** *** The scan *)

Lemma stash_skip re display (r : jstring) : ∀ k st,
  stash re display r k st = stash re display (drop k r) 0 st.
Proof.
  induction r as [|c r IH]; intros [|k] st; try done.
  simpl. apply IH.
Qed.

Section Stash.
Variable re : jstring → option (jstring * nat).
Variable display : bool.
Hypothesis re_shape : ∀ (s f : jstring) len,
  re s = Some (f, len) →
  ∃ dl R, s = dl ++ f ++ dl ++ R ∧ len = length (dl ++ f ++ dl)
    ∧ dl ≠ [] ∧ Forall (fun c => c = DOLLAR) dl.

(** At a match the scan resumes behind it. *)
Lemma stash_match (s f : jstring) len st :
  re s = Some (f, len) →
  ∃ dl R, s = dl ++ f ++ dl ++ R ∧ dl ≠ [] ∧ Forall (fun c => c = DOLLAR) dl
    ∧ stash re display s 0 st =
        (placeholder (counter st) ++
           (stash re display R 0
              {| counter := S (counter st);
                 replacements :=
                   array_set (counter st)
                     {| formula := trim f; isDisplay := display |}
                     (replacements st) |}).1,
         (stash re display R 0
              {| counter := S (counter st);
                 replacements :=
                   array_set (counter st)
                     {| formula := trim f; isDisplay := display |}
                     (replacements st) |}).2).
Proof using re_shape.
  intros Hre. destruct (re_shape s f len Hre) as (dl & R & Hs & Hlen & Hne & Hdl).
  exists dl, R. repeat split; [done..|].
  destruct s as [|c r].
  { destruct dl; [done|discriminate Hs]. }
  cbn [stash]. rewrite Hre, stash_skip.
  assert (drop (len - 1) r = R) as ->.
  { change r with (drop 1 (c :: r)). rewrite drop_drop.
    replace (1 + (len - 1)) with len by (destruct dl; [done|simpl in Hlen; lia]).
    rewrite Hs, Hlen, !app_assoc, <- (app_assoc dl f dl).
    by rewrite drop_app_length. }
  by destruct (stash re display R 0 _).
Qed.

(** What one pass does: it appends entries to the array, keeps the
    text in front of the next dollar or [<] as it is, and moves every
    occurrence of a placeholder either into the new text or into a
    stashed formula, adding one occurrence for each id it issues. *)
Lemma stash_spec : ∀ n (s : jstring) st,
  length s ≤ n → counter st = length (replacements st) →
  ∃ out new,
    stash re display s 0 st =
      (out, {| counter := length (replacements st ++ new);
               replacements := replacements st ++ new |})
    ∧ Forall (fun o => ∃ f, o = Some {| formula := f; isDisplay := display |}) new
    ∧ (∀ u : jstring, LT ∉ u → DOLLAR ∉ u → starts_with u out = starts_with u s)
    ∧ (∀ j, occurrences (placeholder j) out + formula_occurrences (placeholder j) new
            = occurrences (placeholder j) s
              + (if bool_decide (length (replacements st) ≤ j
                                 < length (replacements st ++ new))
                 then 1 else 0)).
Proof using re_shape.
  induction n as [|n IH]; intros s st Hn Hst.
  { destruct s; [|simpl in Hn; lia]. exists [], []. simpl.
    rewrite app_nil_r, <- Hst. destruct st. repeat split; [done|].
    intros j. case_bool_decide; lia. }
  destruct s as [|c r].
  { exists [], []. simpl.
    rewrite app_nil_r, <- Hst. destruct st. repeat split; [done|].
    intros j. case_bool_decide; lia. }
  destruct (re (c :: r)) as [[f len]|] eqn:Hre.
  - destruct (stash_match _ f len st Hre) as (dl & R & Hs & Hne & Hdl & ->).
    set (v := {| formula := trim f; isDisplay := display |}).
    rewrite Hst, array_set_push.
    destruct (IH R {| counter := S (length (replacements st));
                      replacements := replacements st ++ [Some v] |})
      as (out & new & -> & Hnew & Hsw & Hocc).
    { apply (f_equal length) in Hs. rewrite !length_app in Hs. simpl in *.
      destruct dl; [done|]. simpl in Hs. lia. }
    { simpl. rewrite length_app. simpl. lia. }
    cbn [fst snd replacements] in *.
    exists (placeholder (length (replacements st)) ++ out), (Some v :: new).
    rewrite <- !app_assoc. cbn [app]. repeat split.
    + constructor; [by eexists|done].
    + intros [|x u] Hlt Hd; [done|].
      apply not_elem_of_cons in Hlt as [Hx1 _], Hd as [Hx2 _].
      rewrite Hs. destruct dl as [|d dl']; [done|].
      apply Forall_cons in Hdl as [-> _].
      rewrite placeholder_cons. cbn [app starts_with].
      by rewrite !(proj2 (N.eqb_neq x _)).
    + intros j. rewrite occurrences_placeholder. cbn [formula_occurrences foldr].
      fold (formula_occurrences (placeholder j) new).
      cbn [formula v]. rewrite occurrences_trim.
      rewrite Hs, occurrences_delimited by done.
      specialize (Hocc j). rewrite <- app_assoc in Hocc. cbn [app] in Hocc.
      rewrite !length_app in *. cbn [length] in *.
      repeat case_bool_decide; lia.
  - cbn [stash]. rewrite Hre.
    destruct (IH r st) as (out & new & -> & Hnew & Hsw & Hocc);
      [simpl in Hn; lia|done|].
    exists (c :: out), new. repeat split; [done| |].
    + intros [|x u] Hlt Hd; [done|].
      apply not_elem_of_cons in Hlt as [_ Hlt], Hd as [_ Hd].
      cbn [starts_with]. by rewrite Hsw.
    + intros j. specialize (Hocc j).
      assert (starts_with (placeholder j) (c :: out)
              = starts_with (placeholder j) (c :: r)) as Hhead.
      { rewrite (placeholder_cons j). cbn [starts_with].
        rewrite (Hsw (lit "!--knt-math-p" ++ decimal j ++ lit "-->")); [done|..];
          intros H; by apply placeholder_tail_clean in H as (? & ? & _). }
      cbn [occurrences]. rewrite Hhead. lia.
Qed.

End Stash.

(** The conservation law of [stashMath]: the array has no holes, its
    display entries come first, and for each id the occurrences of its
    placeholder in the text handed to the markdown pass and inside the
    stashed formulas are those of the input plus one for an id in use. *)
Lemma stashMath_spec (s : jstring) :
  ∃ content new1 new2,
    stashMath s = (content, new1 ++ new2)
    ∧ Forall (fun o => ∃ f, o = Some {| formula := f; isDisplay := true |}) new1
    ∧ Forall (fun o => ∃ f, o = Some {| formula := f; isDisplay := false |}) new2
    ∧ ∀ j, occurrences (placeholder j) content
           + formula_occurrences (placeholder j) (new1 ++ new2)
           = occurrences (placeholder j) s
             + (if bool_decide (j < length (new1 ++ new2)) then 1 else 0).
Proof.
  unfold stashMath.
  destruct (stash_spec matchDisplay true matchDisplay_shape (length s) s
              {| counter := 0; replacements := [] |})
    as (out1 & new1 & -> & Hnew1 & _ & Hocc1); [done..|].
  cbn [replacements app] in *.
  destruct (stash_spec matchInline false matchInline_shape (length out1) out1
              {| counter := length new1; replacements := new1 |})
    as (out2 & new2 & -> & Hnew2 & _ & Hocc2); [done..|].
  cbn [replacements] in *.
  exists out2, new1, new2. repeat split; [done..|].
  intros j. specialize (Hocc1 j). specialize (Hocc2 j).
  rewrite formula_occurrences_app in *. rewrite length_app in *.
  cbn [length] in Hocc1.
  repeat case_bool_decide; lia.
Qed.

Lemma placeholder_inj i j : placeholder i = placeholder j → i = j.
Proof.
  intros H. pose proof (starts_with_placeholder i j []) as Hs.
  rewrite H, starts_with_self in Hs. symmetry in Hs.
  by apply bool_decide_eq_true in Hs.
Qed.

Lemma occurrences_noDefinition j : occurrences (placeholder j) noDefinition = 0.
Proof. reflexivity. Qed.

(** A paragraph wrapped around a text leaves the placeholders alone. *)
Lemma occurrences_paragraph j (content : jstring) :
  occurrences (placeholder j) (Samples.paragraph content)
  = occurrences (placeholder j) content.
Proof.
  change (occurrences (placeholder j) (Samples.paragraph content))
    with (occurrences (placeholder j) (content ++ lit "</p>" ++ [10%N])).
  rewrite (placeholder_cons j), occurrences_app.
  - change (occurrences _ (lit "</p>" ++ [10%N])) with 0. lia.
  - intros c X' [= <- <-] H. by apply placeholder_tail_clean in H as (? & _).
Qed.

(** C8, as the code has it: when the definition holds no text shaped
    like a placeholder and no stashed formula encloses one (no inline
    span wraps a display block), and the markdown pass hands the
    placeholders through, the placeholders of the body and the entries
    of the array correspond one to one: a placeholder occurs in the
    body only for the id of an entry, the placeholder of each entry
    occurs exactly once, and distinct ids have distinct placeholders. *)
Theorem placeholders_match_segments
    (marked_parse : jstring → jstring) (definition : option jstring) :
  (∀ j, occurrences (placeholder j) (htmlBody (render marked_parse definition))
        = occurrences (placeholder j) (stashMath (default [] definition)).1) →
  (∀ j, occurrences (placeholder j) (default [] definition) = 0) →
  (∀ j, formula_occurrences (placeholder j)
          (mathSegments (render marked_parse definition)) = 0) →
  (∀ j, 0 < occurrences (placeholder j) (htmlBody (render marked_parse definition)) →
        ∃ r, mathSegments (render marked_parse definition) !! j = Some (Some r))
  ∧ (∀ j o, mathSegments (render marked_parse definition) !! j = Some o →
        occurrences (placeholder j) (htmlBody (render marked_parse definition)) = 1)
  ∧ (∀ i j, placeholder i = placeholder j → i = j).
Proof.
  intros Hmd Hin Hform.
  split; [|split; [|apply placeholder_inj]].
  - intros j Hj. rewrite Hmd in Hj. revert Hform Hj.
    destruct definition as [[|c s]|]; simpl; [intros; lia| |intros; lia].
    destruct (stashMath_spec (c :: s)) as (content & new1 & new2 & Hs & H1 & H2 & Hocc).
    specialize (Hocc j). specialize (Hin j).
    change (occurrences (placeholder j) (c :: s) = 0) in Hin.
    rewrite Hs. simpl. intros Hform Hj. specialize (Hform j).
    case_bool_decide as Hlt; [|lia].
    apply lookup_lt_is_Some in Hlt as [o Ho]. rewrite Ho.
    assert (∃ f d, o = Some {| formula := f; isDisplay := d |}) as (f & d & ->).
    { apply list_elem_of_lookup_2, elem_of_app in Ho as [Ho|Ho].
      - rewrite Forall_forall in H1. destruct (H1 o Ho) as [f ->]. eauto.
      - rewrite Forall_forall in H2. destruct (H2 o Ho) as [f ->]. eauto. }
    eauto.
  - intros j o Ho. rewrite Hmd. revert Hform Ho.
    destruct definition as [[|c s]|]; simpl;
      [intros _ H; by rewrite lookup_nil in H| |intros _ H; by rewrite lookup_nil in H].
    destruct (stashMath_spec (c :: s)) as (content & new1 & new2 & Hs & H1 & H2 & Hocc).
    specialize (Hocc j). specialize (Hin j).
    change (occurrences (placeholder j) (c :: s) = 0) in Hin.
    rewrite Hs. simpl. intros Hform Ho. specialize (Hform j).
    apply lookup_lt_Some in Ho.
    case_bool_decide; lia.
Qed.

Lemma placeholders_match_segments_witness :
  (∀ j, 0 < occurrences (placeholder j)
              (htmlBody (render Samples.paragraph (Some Samples.forceText))) →
        ∃ r, mathSegments (render Samples.paragraph (Some Samples.forceText)) !! j
             = Some (Some r))
  ∧ (∀ j o, mathSegments (render Samples.paragraph (Some Samples.forceText)) !! j
            = Some o →
        occurrences (placeholder j)
          (htmlBody (render Samples.paragraph (Some Samples.forceText))) = 1)
  ∧ (∀ i j, placeholder i = placeholder j → i = j).
Proof.
  apply (placeholders_match_segments Samples.paragraph (Some Samples.forceText)).
  - intros j. apply occurrences_paragraph.
  - intros j. rewrite placeholder_cons. apply occurrences_none.
    apply (bool_decide_unpack _). vm_compute. exact I.
  - intros j.
    change (mathSegments (render Samples.paragraph (Some Samples.forceText)))
      with [Some {| formula := lit "F = ma"; isDisplay := true |};
            Some {| formula := lit "F"; isDisplay := false |}].
    rewrite placeholder_cons. unfold formula_occurrences. cbn [foldr formula].
    rewrite !occurrences_none; [done|..];
      apply (bool_decide_unpack _); vm_compute; exact I.
Defined.

(** C8 as stated fails.  An inline span around a display block takes
    the placeholder of the block into its formula: entry 0 is then not
    referenced in the body at all.  A definition that already holds the
    text of a placeholder has it twice in the body. *)
Lemma placeholders_not_one_to_one :
  (stashMath (lit "$a $$b$$ c$")
   = (placeholder 1,
      [Some {| formula := lit "b"; isDisplay := true |};
       Some {| formula := lit "a <!--knt-math-p0--> c"; isDisplay := false |}])
   ∧ occurrences (placeholder 0) (placeholder 1) = 0)
  ∧ (stashMath (lit "<!--knt-math-p0--> $x$")
     = (placeholder 0 ++ lit " " ++ placeholder 0,
        [Some {| formula := lit "x"; isDisplay := false |}])
     ∧ occurrences (placeholder 0) (placeholder 0 ++ lit " " ++ placeholder 0) = 2).
Proof. repeat split; reflexivity. Qed.

(** C2, as the code has it: for the sentence on force the array has two
    entries, the display formula "F = ma" with id 0 and the inline
    formula "F" with id 1; the text handed to the markdown pass has the
    placeholder of id 1 in the parentheses and the placeholder of id 0
    at the end, and a markdown pass that hands placeholders through
    leaves each of the two exactly once in the body, and no other. *)
Theorem render_force_sentence (marked_parse : jstring → jstring) :
  (∀ j, occurrences (placeholder j)
          (htmlBody (render marked_parse (Some Samples.forceText)))
        = occurrences (placeholder j) (stashMath Samples.forceText).1) →
  mathSegments (render marked_parse (Some Samples.forceText))
    = [Some {| formula := lit "F = ma"; isDisplay := true |};
       Some {| formula := lit "F"; isDisplay := false |}]
  ∧ htmlBody (render marked_parse (Some Samples.forceText))
    = marked_parse (lit "Force (" ++ placeholder 1
                    ++ lit ") equals mass times acceleration: " ++ placeholder 0)
  ∧ occurrences (placeholder 0)
      (htmlBody (render marked_parse (Some Samples.forceText))) = 1
  ∧ occurrences (placeholder 1)
      (htmlBody (render marked_parse (Some Samples.forceText))) = 1
  ∧ placeholder 0 ≠ placeholder 1
  ∧ ∀ j, 2 ≤ j →
      occurrences (placeholder j)
        (htmlBody (render marked_parse (Some Samples.forceText))) = 0.
Proof.
  intros Hmd. split; [reflexivity|]. split; [reflexivity|].
  split; [by rewrite Hmd|]. split; [by rewrite Hmd|].
  split; [by intros ?%placeholder_inj|].
  intros j Hj. rewrite Hmd.
  destruct (stashMath_spec Samples.forceText)
    as (content & new1 & new2 & Hs & _ & _ & Hocc).
  specialize (Hocc j). rewrite Hs. simpl.
  assert (length (new1 ++ new2) = 2) as Hlen.
  { apply (f_equal snd) in Hs. simpl in Hs. by rewrite <- Hs. }
  assert (occurrences (placeholder j) Samples.forceText = 0) as Hin.
  { rewrite placeholder_cons. apply occurrences_none.
    apply (bool_decide_unpack _). vm_compute. exact I. }
  rewrite Hlen, Hin in Hocc. case_bool_decide; lia.
Qed.

Lemma render_force_sentence_witness :
  mathSegments (render Samples.paragraph (Some Samples.forceText))
    = [Some {| formula := lit "F = ma"; isDisplay := true |};
       Some {| formula := lit "F"; isDisplay := false |}]
  ∧ occurrences (placeholder 0)
      (htmlBody (render Samples.paragraph (Some Samples.forceText))) = 1
  ∧ occurrences (placeholder 1)
      (htmlBody (render Samples.paragraph (Some Samples.forceText))) = 1.
Proof.
  destruct (render_force_sentence Samples.paragraph) as (H1 & _ & H2 & H3 & _).
  - intros j. apply occurrences_paragraph.
  - auto.
Defined.

(** C2 as stated fails: the first entry of the array is the display
    formula, which is stashed first; the inline formula is the second. *)
Lemma force_segments_display_first :
  (stashMath Samples.forceText).2 !! 0
    = Some (Some {| formula := lit "F = ma"; isDisplay := true |})
  ∧ (stashMath Samples.forceText).2 !! 0
    ≠ Some (Some {| formula := lit "F"; isDisplay := false |})
  ∧ (stashMath Samples.forceText).2 !! 1
    = Some (Some {| formula := lit "F"; isDisplay := false |}).
Proof.
  split; [reflexivity|]. split; [|reflexivity].
  intros H. vm_compute in H. discriminate H.
Qed.

End RenderFacts.

(* ===================================================================== *)
(** * Part III: further properties of the code *)
(* ===================================================================== *)

(** ** server.js: schema discovery and start-up *)
Module DiscoveryFacts.
Import JS Sqlite Server SortFacts LikeFacts.
Local Open Scope nat_scope.

(** Two characters match under LIKE exactly when they agree after
    folding the ASCII letters. *)
Lemma like_char_lower c x : like_char c x = true ↔ asciiLower c = asciiLower x.
Proof.
  unfold like_char, asciiLower.
  rewrite orb_true_iff, !andb_true_iff, !N.eqb_eq, !N.ltb_lt.
  destruct (N.leb_spec 65 c), (N.leb_spec c 90), (N.leb_spec 65 x),
    (N.leb_spec x 90); simpl; lia.
Qed.

Lemma like_literal_cons c p (s : jstring) :
  c ≠ PERCENT → c ≠ UNDERSCORE →
  patternCompare None (c :: p) s
  = match s with [] => false | x :: s' => like_char c x && patternCompare None p s' end.
Proof.
  intros H1 H2. cbn [patternCompare].
  rewrite (proj2 (N.eqb_neq c PERCENT)), (proj2 (N.eqb_neq c UNDERSCORE)) by done.
  rewrite bool_decide_eq_false_2 by done. by destruct s.
Qed.

Lemma like_underscore_cons p (s : jstring) :
  patternCompare None (UNDERSCORE :: p) s
  = match s with [] => false | _ :: s' => patternCompare None p s' end.
Proof. by destruct s. Qed.

(** The texts that match [sqlite_%]. *)
Lemma like_sqlite (n : jstring) :
  patternCompare None (lit "sqlite_%") n = true
  ↔ 7 ≤ length n ∧ toLowerASCII (take 6 n) = lit "sqlite".
Proof.
  change (lit "sqlite_%")
    with [115; 113; 108; 105; 116; 101; UNDERSCORE; PERCENT]%N.
  change (lit "sqlite") with [115; 113; 108; 105; 116; 101]%N.
  do 6 (rewrite like_literal_cons by done;
        destruct n as [|? n];
        [rewrite ?andb_false_r; split; [done|simpl; intros [? ?]; lia]|]).
  rewrite like_underscore_cons.
  destruct n as [|? n];
    [rewrite ?andb_false_r; split; [done|simpl; intros [? ?]; lia]|].
  rewrite like_percent_only, !andb_true_r, !andb_true_iff, !like_char_lower.
  cbn [take toLowerASCII map length]. split.
  - intros (?&?&?&?&?&?). split; [lia|]. by repeat f_equal.
  - intros [_ [= ? ? ? ? ? ?]]. done.
Qed.

(** The names the discovery query passes over: those of which SQLite
    sees "sqlite", in any letter case, and one character more. *)
Lemma user_table_false (n : jstring) :
  user_table n = false
  ↔ 7 ≤ length (c_string n) ∧ toLowerASCII (take 6 (c_string n)) = lit "sqlite".
Proof.
  rewrite <- like_sqlite. unfold user_table, like.
  change (pattern_too_complex (lit "sqlite_%")) with false.
  change (c_string (lit "sqlite_%")) with (lit "sqlite_%").
  cbv iota. by destruct (patternCompare None (lit "sqlite_%") (c_string n)).
Qed.


Lemma head_take_1 {A : Type} (l : list A) : head (take 1 l) = head l.
Proof. by destruct l. Qed.


(** The table the discovery query returns: among the names that are
    not passed over, the least one. *)
Lemma first_user_table_None (cat : catalog) :
  first_user_table cat = None ↔ ∀ e, e ∈ cat → user_table e.1 = false.
Proof.
  unfold first_user_table. rewrite head_take_1, head_None.
  change (map fst cat) with (fst <$> cat). split.
  - intros Hnil e He.
    destruct (user_table e.1) eqn:Hl; [|done].
    assert (e.1 ∈ order_by binary (fun n => Some n) (filter user_table (fst <$> cat)))
      as Hin.
    { unfold order_by. rewrite elem_of_sort, list_elem_of_filter, Hl.
      split; [done|]. by apply list_elem_of_fmap_2. }
    rewrite Hnil in Hin. by apply elem_of_nil in Hin.
  - intros Hall.
    destruct (order_by _ _ _) as [|t l] eqn:Hs; [done|]. exfalso.
    assert (t ∈ t :: l) as Hin by left. rewrite <- Hs in Hin.
    unfold order_by in Hin.
    rewrite elem_of_sort, list_elem_of_filter, list_elem_of_fmap in Hin.
    destruct Hin as [Hu (e & -> & He)]. rewrite (Hall e He) in Hu. done.
Qed.




(** X1: discovery fails for want of a user table exactly when of every
    table name SQLite sees at least seven characters that start with
    "sqlite" in any letter case (the underscore of the pattern stands
    for any character; a name is seen as far as its first NUL), in
    particular on an empty catalog. *)
Theorem discovery_no_user_table
    (pragma : catalog → jstring → option (list jstring)) (cat : catalog) :
  discoverSchema pragma cat = inl NoUserTable
  ↔ ∀ e, e ∈ cat →
      7 ≤ length (c_string e.1) ∧ toLowerASCII (take 6 (c_string e.1)) = lit "sqlite".
Proof.
  transitivity (first_user_table cat = None).
  - unfold discoverSchema. destruct (first_user_table cat) as [t|]; [|done].
    split; [|done]. destruct (table_info pragma cat t) as [cols|]; [|done].
    destruct (_ <? 3); [done|].
    by destruct (take 4 cols) as [|? [|? [|? ?]]].
  - rewrite first_user_table_None. by setoid_rewrite user_table_false.
Qed.



End DiscoveryFacts.

(** ** server.js: searching, the routes *)
Module SearchFacts.
Import JS Sqlite Server SortFacts LikeFacts RepositoryFacts DiscoveryFacts.
Local Open Scope nat_scope.

Lemma Forall2_like_char (q mid : jstring) :
  Forall2 (fun c x => like_char c x = true) q mid
  ↔ toLowerASCII q = toLowerASCII mid.
Proof.
  unfold toLowerASCII.
  revert mid; induction q as [|c q IH]; intros [|x mid]; simpl.
  - split; [done|constructor].
  - split; [intros H; inversion H|done].
  - split; [intros H; inversion H|done].
  - split.
    + intros H. inversion H as [|? ? ? ? Hc Hq]; subst.
      apply like_char_lower in Hc. apply IH in Hq. by f_equal.
    + intros [= Hc Hq]. constructor; [by apply like_char_lower|by apply IH].
Qed.

(** Containment up to letter case, in terms of the folded texts. *)
Lemma contains_nocase_lower (q t : jstring) :
  contains_nocase q t
  ↔ ∃ pre mid post, t = pre ++ mid ++ post ∧ toLowerASCII mid = toLowerASCII q.
Proof.
  unfold contains_nocase. split; intros (pre & mid & post & -> & H);
    exists pre, mid, post; (split; [done|]).
  - symmetry. by apply Forall2_like_char.
  - by apply Forall2_like_char.
Qed.

(** Folding the ASCII letters of a text changes neither where it ends
    for SQLite, nor its length in bytes, nor what is escaped in it. *)
Lemma asciiLower_nul c : asciiLower c = NUL ↔ c = NUL.
Proof.
  unfold asciiLower, NUL.
  destruct (N.leb_spec 65 c), (N.leb_spec c 90); simpl; lia.
Qed.

Lemma c_string_lower (s : jstring) :
  c_string (toLowerASCII s) = toLowerASCII (c_string s).
Proof.
  induction s as [|c s IH]; [done|].
  change (toLowerASCII (c :: s)) with (asciiLower c :: toLowerASCII s).
  cbn [c_string].
  destruct (N.eqb_spec c NUL) as [->|Hc]; [done|].
  rewrite (proj2 (N.eqb_neq (asciiLower c) NUL)) by (by rewrite asciiLower_nul).
  by rewrite IH.
Qed.

Lemma elem_of_lower_nul (s : jstring) : NUL ∈ toLowerASCII s ↔ NUL ∈ s.
Proof.
  induction s as [|c s IH]; [done|].
  change (toLowerASCII (c :: s)) with (asciiLower c :: toLowerASCII s).
  rewrite !elem_of_cons, IH.
  assert (NUL = asciiLower c ↔ NUL = c) as ->; [|done].
  split; intros H; symmetry; symmetry in H; by apply asciiLower_nul.
Qed.

Lemma utf8_bytes_lower c : utf8_bytes (asciiLower c) = utf8_bytes c.
Proof.
  unfold utf8_bytes, asciiLower.
  destruct (N.leb_spec 65 c), (N.leb_spec c 90); simpl; [|done..].
  by rewrite (proj2 (N.ltb_lt (c + 32) 128)), (proj2 (N.ltb_lt c 128)) by lia.
Qed.

Lemma byte_length_lower (s : jstring) : byte_length (toLowerASCII s) = byte_length s.
Proof.
  unfold byte_length, toLowerASCII. induction s as [|c s IH]; [done|].
  cbn [map foldr]. by rewrite IH, utf8_bytes_lower.
Qed.

Lemma escapeLike_lower (q : jstring) :
  escapeLike (toLowerASCII q) = toLowerASCII (escapeLike q).
Proof.
  induction q as [|c q IH]; [done|].
  change (toLowerASCII (c :: q)) with (asciiLower c :: toLowerASCII q).
  rewrite (escapeLike_cons c q), (escapeLike_cons (asciiLower c)), IH.
  rewrite (map_app asciiLower : ∀ a b : jstring,
             toLowerASCII (a ++ b) = toLowerASCII a ++ toLowerASCII b).
  f_equal.
  unfold escapeLike. simpl flat_map. rewrite !app_nil_r.
  assert (((asciiLower c =? PERCENT) || (asciiLower c =? UNDERSCORE)
           || (asciiLower c =? BACKSLASH))%N
          = ((c =? PERCENT) || (c =? UNDERSCORE) || (c =? BACKSLASH))%N) as ->.
  { unfold asciiLower, PERCENT, UNDERSCORE, BACKSLASH.
    destruct (N.leb_spec 65 c), (N.leb_spec c 90); simpl; [|done..].
    by rewrite !(proj2 (N.eqb_neq _ _)) by lia. }
  by destruct (_ || _).
Qed.

Lemma pattern_too_complex_lower (q q' : jstring) :
  toLowerASCII q = toLowerASCII q' →
  pattern_too_complex ([PERCENT] ++ escapeLike q ++ [PERCENT])
  = pattern_too_complex ([PERCENT] ++ escapeLike q' ++ [PERCENT]).
Proof.
  intros Hq. unfold pattern_too_complex. rewrite !byte_length_app.
  rewrite <- (byte_length_lower (escapeLike q)), <- (byte_length_lower (escapeLike q')).
  by rewrite <- !escapeLike_lower, Hq.
Qed.

Lemma search_pattern_lower (q q' s : jstring) :
  toLowerASCII q = toLowerASCII q' →
  patternCompare (Some BACKSLASH)
    (c_string ([PERCENT] ++ escapeLike q ++ [PERCENT])) s
  = patternCompare (Some BACKSLASH)
      (c_string ([PERCENT] ++ escapeLike q' ++ [PERCENT])) s.
Proof.
  intros Hq. apply eq_true_iff_eq. rewrite !search_pattern_spec.
  setoid_rewrite Forall2_like_char.
  assert (NUL ∈ q ↔ NUL ∈ q') as Hn.
  { by rewrite <- (elem_of_lower_nul q), <- (elem_of_lower_nul q'), Hq. }
  assert (toLowerASCII (c_string q) = toLowerASCII (c_string q')) as ->.
  { by rewrite <- !c_string_lower, Hq. }
  by setoid_rewrite Hn.
Qed.

Lemma where_like_lower (q q' : jstring) (v : value) :
  toLowerASCII q = toLowerASCII q' →
  where_like (Some BACKSLASH) ([PERCENT] ++ escapeLike q ++ [PERCENT]) v
  = where_like (Some BACKSLASH) ([PERCENT] ++ escapeLike q' ++ [PERCENT]) v.
Proof.
  intros Hq. unfold where_like, like.
  rewrite (pattern_too_complex_lower q q' Hq).
  destruct (pattern_too_complex _); [by destruct v|].
  destruct v as [t|]; [|done]. by rewrite (search_pattern_lower q q' _ Hq).
Qed.

Lemma sql_where_ext {R : Type} (cond cond' : R → option bool) (rows : list R) :
  (∀ r, cond r = cond' r) → sql_where cond rows = sql_where cond' rows.
Proof.
  intros Hc. induction rows as [|r rows IH]; [done|].
  simpl. by rewrite Hc, IH.
Qed.

(** The length of the escaped query: a byte more for each escaped
    character. *)
Lemma byte_length_escapeLike (q : jstring) :
  byte_length (escapeLike q)
  = (byte_length q
     + N.of_nat (length (filter
         (fun c => c = PERCENT ∨ c = UNDERSCORE ∨ c = BACKSLASH) q)))%N.
Proof.
  induction q as [|c q IH]; [done|].
  rewrite escapeLike_cons, byte_length_app, IH, filter_cons.
  change (byte_length (c :: q)) with (utf8_bytes c + byte_length q)%N.
  unfold escapeLike. simpl flat_map. rewrite app_nil_r.
  destruct (decide (c = PERCENT ∨ c = UNDERSCORE ∨ c = BACKSLASH)) as [Hc|Hc].
  - assert (((c =? PERCENT) || (c =? UNDERSCORE) || (c =? BACKSLASH))%N = true) as ->.
    { destruct Hc as [-> | [-> | ->]]; reflexivity. }
    change (byte_length [BACKSLASH; c]) with (1 + (utf8_bytes c + 0))%N.
    cbn [length]. lia.
  - assert (((c =? PERCENT) || (c =? UNDERSCORE) || (c =? BACKSLASH))%N = false) as ->.
    { rewrite !orb_false_iff, !N.eqb_neq. tauto. }
    change (byte_length [c]) with (utf8_bytes c + 0)%N. lia.
Qed.

(** When nothing is cut off by the limit of the statement, a term is
    returned exactly when it is selected. *)
Lemma elem_of_fetchWords_complete
    (toLowerCase : jstring → jstring) (localeCompare : jstring → jstring → Z)
    (db : list row) (q t : jstring) (l : list jstring) :
  q ≠ [] →
  pattern_too_complex ([PERCENT] ++ escapeLike q ++ [PERCENT]) = false →
  length db ≤ LIMIT →
  fetchWords toLowerCase localeCompare db q = Some l →
  (t ∈ l ↔ t ≠ [] ∧ (∃ r, r ∈ db ∧ w r = Some t)
     ∧ patternCompare (Some BACKSLASH)
         (c_string ([PERCENT] ++ escapeLike q ++ [PERCENT])) (c_string t) = true).
Proof.
  intros Hq Hp Hlen Hf. split.
  - by apply (elem_of_fetchWords_search toLowerCase localeCompare db q l t).
  - intros (Hne & (r & Hr & Hw) & Hm).
    rewrite fetchWords_search_within in Hf by done. injection Hf as <-.
    rewrite elem_of_sort, elem_of_filterBoolean. split; [done|].
    rewrite take_ge.
    + apply list_elem_of_fmap. exists r. split; [done|].
      apply elem_of_order_by, list_elem_of_filter. split; [|done].
      apply where_like_true. split; [done|]. by exists t.
    + rewrite length_order_by. etrans; [apply length_filter|done].
Qed.

(** X4: when the pattern is within SQLite's limit and the table has at
    most 10,000 rows, a search returns exactly the non-empty terms of
    the table of which the part SQLite sees (as far as a NUL) contains
    the seen part of the query up to the case of ASCII letters, at its
    end when the query has a NUL; for a query without NUL these are the
    terms whose seen part contains the query.  The result has at most
    10,000 entries. *)
Theorem fetchWords_search_complete
    (toLowerCase : jstring → jstring) (localeCompare : jstring → jstring → Z)
    (db : list row) (q : jstring) :
  q ≠ [] →
  pattern_too_complex ([PERCENT] ++ escapeLike q ++ [PERCENT]) = false →
  length db ≤ LIMIT →
  ∃ words, fetchWords toLowerCase localeCompare db q = Some words
    ∧ (∀ t, t ∈ words ↔
         t ≠ [] ∧ (∃ r, r ∈ db ∧ w r = Some t)
         ∧ ∃ pre mid post, c_string t = pre ++ mid ++ post
             ∧ toLowerASCII (c_string q) = toLowerASCII mid
             ∧ (NUL ∈ q → post = []))
    ∧ (NUL ∉ q → ∀ t, t ∈ words ↔
         t ≠ [] ∧ (∃ r, r ∈ db ∧ w r = Some t) ∧ contains_nocase q (c_string t))
    ∧ length words ≤ N.to_nat 10000.
Proof.
  intros Hq Hp Hlen.
  destruct (fetchWords toLowerCase localeCompare db q) as [words|] eqn:Hf.
  2: { apply fetchWords_None in Hf as (_ & _ & Hf). by rewrite Hp in Hf. }
  exists words. split; [done|].
  pose proof (fun t => elem_of_fetchWords_complete toLowerCase localeCompare
                         db q t words Hq Hp Hlen Hf) as Hiff.
  split; [|split].
  - intros t. rewrite Hiff, search_pattern_spec.
    by setoid_rewrite Forall2_like_char.
  - intros Hnul t. rewrite Hiff, search_pattern_spec. unfold contains_nocase.
    rewrite (c_string_id q Hnul). split.
    + intros (? & ? & pre & mid & post & ? & ? & _). eauto 10.
    + intros (? & ? & pre & mid & post & ? & ?). repeat split; [done..|].
      exists pre, mid, post. done.
  - by apply (length_fetchWords toLowerCase localeCompare db q).
Qed.

Lemma fetchWords_search_complete_witness :
  ∃ words,
    fetchWords toLowerASCII ordinalCompare Samples.db1 (lit "RPM") = Some words
    ∧ lit "500 rpm" ∈ words.
Proof.
  destruct (fetchWords_search_complete toLowerASCII ordinalCompare Samples.db1
              (lit "RPM")) as (words & Hf & _ & Hiff & _).
  - discriminate.
  - reflexivity.
  - vm_compute. lia.
  - exists words. split; [done|]. apply Hiff.
    + intros Hin. vm_compute in Hin.
      repeat (apply elem_of_cons in Hin as [Hin | Hin]; [discriminate Hin|]).
      by apply elem_of_nil in Hin.
    + split; [discriminate|]. split.
      * exists (Samples.nullRow (Some (lit "500 rpm"))). split; [|done].
        do 5 right. left.
      * apply contains_nocase_lower. by exists (lit "500 "), (lit "rpm"), [].
Defined.

(** X5: the letter case of the query does not matter: two queries that
    agree after folding the ASCII letters give the same result. *)
Theorem fetchWords_query_case
    (toLowerCase : jstring → jstring) (localeCompare : jstring → jstring → Z)
    (db : list row) (q q' : jstring) :
  toLowerASCII q = toLowerASCII q' →
  fetchWords toLowerCase localeCompare db q
  = fetchWords toLowerCase localeCompare db q'.
Proof.
  intros Hq. unfold fetchWords.
  assert (truthy q = truthy q') as <-.
  { destruct q, q'; try done; discriminate Hq. }
  destruct (truthy q); [|done].
  unfold stmtSearchWords.
  rewrite (sql_where_ext _
    (fun r => where_like (Some BACKSLASH)
                ([PERCENT] ++ escapeLike q' ++ [PERCENT]) (w r))); [done|].
  intros r. by apply where_like_lower.
Qed.

Lemma fetchWords_query_case_witness :
  fetchWords toLowerASCII ordinalCompare Samples.db1 (lit "bEAm")
  = fetchWords toLowerASCII ordinalCompare Samples.db1 (lit "Beam").
Proof.
  apply (fetchWords_query_case toLowerASCII ordinalCompare Samples.db1 (lit "bEAm") (lit "Beam")).
  reflexivity.
Defined.

(** *** The routes *)

Lemma dropWhile_all (p : N → bool) (s : jstring) :
  Forall (fun c => p c = true) s → dropWhile p s = [].
Proof. induction 1 as [|c s Hc _ IH]; simpl; [done|]. by rewrite Hc. Qed.

Lemma dropWhile_app_all (p : N → bool) (lead s : jstring) :
  Forall (fun c => p c = true) lead → dropWhile p (lead ++ s) = dropWhile p s.
Proof. induction 1 as [|c l Hc _ IH]; simpl; [done|]. by rewrite Hc. Qed.

Lemma dropWhile_app (p : N → bool) (s trail : jstring) :
  dropWhile p (s ++ trail) = dropWhile p s ++ trail
  ∨ (dropWhile p s = [] ∧ dropWhile p (s ++ trail) = dropWhile p trail).
Proof.
  induction s as [|c s IH]; simpl; [by right|].
  destruct (p c); [done|by left].
Qed.

Lemma trimEnd_app_all (s trail : jstring) :
  Forall (fun c => isWhiteSpace c = true) trail → trimEnd (s ++ trail) = trimEnd s.
Proof.
  intros Ht. unfold trimEnd. rewrite rev_app_distr.
  rewrite dropWhile_app_all; [done|]. by apply Forall_rev.
Qed.

(** Whitespace around a text is lost in [trim]. *)
Lemma trim_surrounded (lead s trail : jstring) :
  Forall (fun c => isWhiteSpace c = true) lead →
  Forall (fun c => isWhiteSpace c = true) trail →
  trim (lead ++ s ++ trail) = trim s.
Proof.
  intros Hl Ht. unfold trim, trimStart. rewrite dropWhile_app_all by done.
  destruct (dropWhile_app isWhiteSpace s trail) as [-> | [Hs ->]].
  - by apply trimEnd_app_all.
  - rewrite Hs, dropWhile_all by done. done.
Qed.

(** X6: the words route ignores whitespace around the search
    parameter, and a parameter that is missing, empty or blank lists
    all terms. *)
Theorem apiWords_trims_query
    (toLowerCase : jstring → jstring) (localeCompare : jstring → jstring → Z)
    (db : list row) (lead q trail : jstring) :
  Forall (fun c => isWhiteSpace c = true) lead →
  Forall (fun c => isWhiteSpace c = true) trail →
  apiWords toLowerCase localeCompare db (Some (lead ++ q ++ trail))
  = apiWords toLowerCase localeCompare db (Some q)
  ∧ apiWords toLowerCase localeCompare db (Some (lead ++ trail))
    = fetchWords toLowerCase localeCompare db []
  ∧ apiWords toLowerCase localeCompare db None
    = fetchWords toLowerCase localeCompare db [].
Proof.
  intros Hl Ht.
  assert (∀ s, apiWords toLowerCase localeCompare db (Some s)
               = fetchWords toLowerCase localeCompare db (trim s)) as Hs.
  { intros [|c s]; reflexivity. }
  rewrite !Hs. split; [by rewrite trim_surrounded|]. split; [|done].
  rewrite <- (app_nil_l trail) at 1. by rewrite trim_surrounded.
Qed.

Lemma apiWords_trims_query_witness :
  apiWords toLowerASCII ordinalCompare Samples.db1 (Some (lit "  " ++ lit "rpm" ++ lit " "))
  = apiWords toLowerASCII ordinalCompare Samples.db1 (Some (lit "rpm")).
Proof.
  apply (apiWords_trims_query toLowerASCII ordinalCompare Samples.db1 (lit "  ") (lit "rpm") (lit " "));
    by repeat constructor.
Defined.



(** *** Searching, as SQLite reads the query *)

(** X16: for a non-empty query, every returned term contains the part
    of the query that SQLite sees (as far as a NUL) up to the case of
    ASCII letters, so the whole query when it has no NUL, and the
    sequence is ascending for the comparison of the lower-cased terms.
    Nothing is returned only when the table has rows and the pattern is
    longer than SQLite allows. *)
Theorem fetchWords_search_contains_seen_query
    (toLowerCase : jstring → jstring) (localeCompare : jstring → jstring → Z)
    (db : list row) (q : jstring) :
  q ≠ [] →
  (∀ x y, (0 < localeCompare x y)%Z → (localeCompare y x <= 0)%Z) →
  (∀ x y z, (localeCompare x y <= 0)%Z → (localeCompare y z <= 0)%Z →
     (localeCompare x z <= 0)%Z) →
  match fetchWords toLowerCase localeCompare db q with
  | Some words =>
      (∀ t, t ∈ words → contains_nocase (c_string q) t)
      ∧ (NUL ∉ q → ∀ t, t ∈ words → contains_nocase q t)
      ∧ StronglySorted (ascending (compareWords toLowerCase localeCompare)) words
  | None =>
      db ≠ [] ∧ pattern_too_complex ([PERCENT] ++ escapeLike q ++ [PERCENT]) = true
  end.
Proof.
  intros Hq Htot Htrans.
  destruct (fetchWords toLowerCase localeCompare db q) as [words|] eqn:Hf.
  2: { by apply fetchWords_None in Hf as (_ & ? & ?). }
  assert (∀ t, t ∈ words → contains_nocase (c_string q) t) as Hc.
  { intros t Ht.
    apply (elem_of_fetchWords_search _ _ _ _ _ t Hq Hf) in Ht as (_ & _ & Hm).
    by apply contains_seen. }
  split; [done|]. split.
  - intros Hnul t Ht. rewrite <- (c_string_id q Hnul). by apply Hc.
  - by apply (fetchWords_sorted toLowerCase localeCompare Htot Htrans db q).
Qed.

Lemma fetchWords_search_contains_seen_query_witness :
  ∃ words,
    fetchWords toLowerASCII ordinalCompare Samples.db1 (lit "m") = Some words
    ∧ (∀ t, t ∈ words → contains_nocase (lit "m") t)
    ∧ StronglySorted (ascending (compareWords toLowerASCII ordinalCompare)) words.
Proof.
  pose proof (fetchWords_search_contains_seen_query toLowerASCII ordinalCompare
                Samples.db1 (lit "m")) as H.
  destruct (fetchWords toLowerASCII ordinalCompare Samples.db1 (lit "m"))
    as [words|].
  - exists words. split; [done|].
    destruct H as (_ & H2 & H3).
    + discriminate.
    + apply ordinalCompare_total.
    + apply ordinalCompare_trans.
    + split; [|done]. apply H2. intros Hin. vm_compute in Hin.
      repeat (apply elem_of_cons in Hin as [Hin | Hin]; [discriminate Hin|]).
      by apply elem_of_nil in Hin.
  - destruct H as [_ H].
    + discriminate.
    + apply ordinalCompare_total.
    + apply ordinalCompare_trans.
    + vm_compute in H. discriminate H.
Defined.

(** X17: in a query without NUL the characters [%], [_] and the
    backslash stand for themselves.  The pattern handed to the
    statement, when within SQLite's limit, matches exactly the texts
    whose seen part contains the query, and every term returned for the
    query contains it, these characters included. *)
Theorem search_special_characters_literal_without_nul
    (toLowerCase : jstring → jstring) (localeCompare : jstring → jstring → Z)
    (db : list row) (q : jstring) :
  q ≠ [] → NUL ∉ q →
  pattern_too_complex ([PERCENT] ++ escapeLike q ++ [PERCENT]) = false →
  (∀ s, like (Some BACKSLASH) ([PERCENT] ++ escapeLike q ++ [PERCENT]) s = Some true
        ↔ contains_nocase q (c_string s))
  ∧ ∃ words, fetchWords toLowerCase localeCompare db q = Some words
      ∧ ∀ t, t ∈ words →
          contains_nocase q t
          ∧ ∀ c, c ∈ q → c = PERCENT ∨ c = UNDERSCORE ∨ c = BACKSLASH → c ∈ t.
Proof.
  intros Hq Hnul Hp. split.
  - intros s. unfold like. rewrite Hp.
    rewrite c_string_search_pattern, decide_False by done.
    rewrite (c_string_id q Hnul). split.
    + intros [= H]. by apply like_search_pattern.
    + intros H%like_search_pattern. f_equal. exact H.
  - destruct (fetchWords toLowerCase localeCompare db q) as [words|] eqn:Hf.
    2: { apply fetchWords_None in Hf as (_ & _ & Hf). by rewrite Hp in Hf. }
    exists words. split; [done|]. intros t Ht.
    apply (elem_of_fetchWords_search _ _ _ _ _ t Hq Hf) in Ht as (_ & _ & Hm).
    apply contains_seen in Hm. rewrite (c_string_id q Hnul) in Hm.
    split; [done|]. intros c Hin Hsp.
    apply (contains_nocase_exact q t c Hm Hin);
      destruct Hsp as [-> | [-> | ->]]; vm_compute; auto.
Qed.

Lemma search_special_characters_literal_without_nul_witness :
  fetchWords toLowerASCII ordinalCompare Samples.db1 (lit "50%") = Some [lit "50%"]
  ∧ ∃ words,
      fetchWords toLowerASCII ordinalCompare Samples.db1 (lit "50%") = Some words
      ∧ ∀ t, t ∈ words →
          contains_nocase (lit "50%") t
          ∧ ∀ c, c ∈ lit "50%" → c = PERCENT ∨ c = UNDERSCORE ∨ c = BACKSLASH → c ∈ t.
Proof.
  split; [reflexivity|].
  apply (search_special_characters_literal_without_nul toLowerASCII ordinalCompare
           Samples.db1 (lit "50%")).
  - discriminate.
  - intros Hin. vm_compute in Hin.
    repeat (apply elem_of_cons in Hin as [Hin | Hin]; [discriminate Hin|]).
    by apply elem_of_nil in Hin.
  - reflexivity.
Defined.

(** X18: a listing never throws, and a search throws exactly when the
    table has rows and the pattern is longer than 50,000 bytes: the
    query in UTF-8, a byte for each [%], [_] and backslash in it, and
    the two [%] around it.  A query of at most 24,999 bytes is always
    answered. *)
Theorem fetchWords_throws_iff_pattern_too_long
    (toLowerCase : jstring → jstring) (localeCompare : jstring → jstring → Z)
    (db : list row) (q : jstring) :
  (fetchWords toLowerCase localeCompare db q = None
   ↔ q ≠ [] ∧ db ≠ []
     ∧ (50000 < byte_length q
                + N.of_nat (length (filter
                    (fun c => c = PERCENT ∨ c = UNDERSCORE ∨ c = BACKSLASH) q))
                + 2)%N)
  ∧ ((byte_length q <= 24999)%N →
     ∃ words, fetchWords toLowerCase localeCompare db q = Some words).
Proof.
  assert (pattern_too_complex ([PERCENT] ++ escapeLike q ++ [PERCENT]) = true
          ↔ (50000 < byte_length q
                + N.of_nat (length (filter
                    (fun c => c = PERCENT ∨ c = UNDERSCORE ∨ c = BACKSLASH) q))
                + 2)%N) as Hlong.
  { unfold pattern_too_complex, LIKE_PATTERN_LENGTH.
    rewrite N.ltb_lt, !byte_length_app, byte_length_escapeLike.
    change (byte_length [PERCENT]) with 1%N. lia. }
  split.
  - by rewrite fetchWords_None, Hlong.
  - intros Hlen.
    destruct (fetchWords toLowerCase localeCompare db q) as [words|] eqn:Hf; [eauto|].
    apply fetchWords_None in Hf as (_ & _ & Hf). apply Hlong in Hf.
    pose proof (length_filter
      (fun c => c = PERCENT ∨ c = UNDERSCORE ∨ c = BACKSLASH) q) as Hsp.
    assert (N.of_nat (length q) <= byte_length q)%N as Hq.
    { clear. induction q as [|c q IH]; [done|].
      change (byte_length (c :: q)) with (utf8_bytes c + byte_length q)%N.
      assert (1 <= utf8_bytes c)%N.
      { unfold utf8_bytes. repeat destruct (_ <? _)%N; lia. }
      cbn [length]. lia. }
    lia.
Qed.

Lemma fetchWords_throws_iff_pattern_too_long_witness :
  ∃ words, fetchWords toLowerASCII ordinalCompare Samples.db1 (lit "50%") = Some words.
Proof.
  apply (fetchWords_throws_iff_pattern_too_long toLowerASCII ordinalCompare
           Samples.db1 (lit "50%")).
  vm_compute. discriminate.
Defined.



End SearchFacts.

(** ** The front-end script: the two escaping functions *)
Module EscapeFacts.
Import JS Client.
Local Open Scope nat_scope.

Lemma escapeHtml_cons c (s : jstring) :
  escapeHtml (c :: s) = escapeHtml [c] ++ escapeHtml s.
Proof. unfold escapeHtml. simpl. by rewrite app_nil_r. Qed.

Lemma escapeAttribute_cons c (s : jstring) :
  escapeAttribute (c :: s) = escapeAttribute [c] ++ escapeAttribute s.
Proof. unfold escapeAttribute. simpl. by rewrite app_nil_r. Qed.

(** What [escapeHtml] makes of one character. *)
Lemma escapeHtml_char c :
  (c = AMP ∧ escapeHtml [c] = lit "&amp;")
  ∨ (c = LT ∧ escapeHtml [c] = lit "&lt;")
  ∨ (c = GT ∧ escapeHtml [c] = lit "&gt;")
  ∨ (c = QUOTE ∧ escapeHtml [c] = lit "&quot;")
  ∨ (c = APOS ∧ escapeHtml [c] = lit "&#39;")
  ∨ (c ≠ AMP ∧ c ≠ LT ∧ c ≠ GT ∧ c ≠ QUOTE ∧ c ≠ APOS ∧ escapeHtml [c] = [c]).
Proof.
  unfold escapeHtml. simpl flat_map. rewrite app_nil_r.
  destruct (N.eqb_spec c AMP); [by left|right].
  destruct (N.eqb_spec c LT); [by left|right].
  destruct (N.eqb_spec c GT); [by left|right].
  destruct (N.eqb_spec c QUOTE); [by left|right].
  destruct (N.eqb_spec c APOS); [by left|right]. done.
Qed.

(** What [escapeAttribute] makes of one character. *)
Lemma escapeAttribute_char c :
  (c = QUOTE ∧ escapeAttribute [c] = lit "&quot;")
  ∨ (c = APOS ∧ escapeAttribute [c] = lit "&#39;")
  ∨ (c = BACKTICK ∧ escapeAttribute [c] = lit "&#96;")
  ∨ (c = LT ∧ escapeAttribute [c] = lit "&lt;")
  ∨ (c = GT ∧ escapeAttribute [c] = lit "&gt;")
  ∨ (c ≠ QUOTE ∧ c ≠ APOS ∧ c ≠ BACKTICK ∧ c ≠ LT ∧ c ≠ GT
     ∧ escapeAttribute [c] = [c]).
Proof.
  unfold escapeAttribute. simpl flat_map. rewrite app_nil_r.
  destruct (N.eqb_spec c QUOTE); [by left|right].
  destruct (N.eqb_spec c APOS); [by left|right].
  destruct (N.eqb_spec c BACKTICK); [by left|right].
  destruct (N.eqb_spec c LT); [by left|right].
  destruct (N.eqb_spec c GT); [by left|right]. done.
Qed.

(** The characters of an escaped attribute are those of the text that
    are left alone, and those of the entities. *)
Lemma elem_of_escapeAttribute x (s : jstring) :
  x ∈ escapeAttribute s →
  (x ∈ s ∧ x ≠ QUOTE ∧ x ≠ APOS ∧ x ≠ BACKTICK ∧ x ≠ LT ∧ x ≠ GT)
  ∨ x ∈ lit "&quot;#3960ltg".
Proof.
  induction s as [|c s IH]; [by intros ?%elem_of_nil|].
  rewrite escapeAttribute_cons, elem_of_app. intros [Hx|Hx].
  - destruct (escapeAttribute_char c)
      as [[_ E]|[[_ E]|[[_ E]|[[_ E]|[[_ E]|(?&?&?&?&?&E)]]]]];
      rewrite E in Hx.
    6: { apply list_elem_of_singleton in Hx as ->. left.
         split; [left|done]. }
    all: right; apply list_elem_of_In in Hx; simpl in Hx;
      repeat (destruct Hx as [<- | Hx];
              [apply (bool_decide_unpack _); vm_compute; exact I|]);
      destruct Hx.
  - destruct (IH Hx) as [(?&?)|?]; [left|by right]. split; [by right|done].
Qed.

(** X8: [escapeHtml] leaves no less-than, greater-than, double quote or
    apostrophe in its result, changes nothing in a text without the
    five special characters, and gives different results for different
    texts. *)
Theorem escapeHtml_safe_and_injective :
  (∀ s, Forall (fun c => c ≠ LT ∧ c ≠ GT ∧ c ≠ QUOTE ∧ c ≠ APOS) (escapeHtml s))
  ∧ (∀ s, Forall (fun c => c ≠ AMP ∧ c ≠ LT ∧ c ≠ GT ∧ c ≠ QUOTE ∧ c ≠ APOS) s →
          escapeHtml s = s)
  ∧ (∀ s1 s2, escapeHtml s1 = escapeHtml s2 → s1 = s2).
Proof.
  split; [|split].
  - induction s as [|c s IH]; [constructor|].
    rewrite escapeHtml_cons. apply Forall_app. split; [|done].
    destruct (escapeHtml_char c)
      as [[_ E]|[[_ E]|[[_ E]|[[_ E]|[[_ E]|(?&?&?&?&?&E)]]]]]; rewrite E;
      repeat constructor; done.
  - induction 1 as [|c s (?&?&?&?&?) _ IH]; [done|].
    rewrite escapeHtml_cons, IH.
    destruct (escapeHtml_char c)
      as [[? _]|[[? _]|[[? _]|[[? _]|[[? _]|(?&?&?&?&?&E)]]]]]; try done.
    by rewrite E.
  - induction s1 as [|c1 s1 IH]; intros [|c2 s2].
    + done.
    + rewrite escapeHtml_cons.
      destruct (escapeHtml_char c2)
        as [[_ E]|[[_ E]|[[_ E]|[[_ E]|[[_ E]|(?&?&?&?&?&E)]]]]]; rewrite E;
        discriminate.
    + rewrite escapeHtml_cons.
      destruct (escapeHtml_char c1)
        as [[_ E]|[[_ E]|[[_ E]|[[_ E]|[[_ E]|(?&?&?&?&?&E)]]]]]; rewrite E;
        discriminate.
    + rewrite (escapeHtml_cons c1), (escapeHtml_cons c2).
      destruct (escapeHtml_char c1)
        as [[-> E1]|[[-> E1]|[[-> E1]|[[-> E1]|[[-> E1]|(?&?&?&?&?&E1)]]]]];
      destruct (escapeHtml_char c2)
        as [[-> E2]|[[-> E2]|[[-> E2]|[[-> E2]|[[-> E2]|(?&?&?&?&?&E2)]]]]];
      rewrite ?E1, ?E2; intros Heq; vm_compute lit in Heq; simplify_eq/=;
        try done; f_equal; by apply IH.
Qed.

(** X9: [escapeAttribute] leaves no double quote, apostrophe, backtick,
    less-than or greater-than in its result and changes nothing in a
    text without them; applying it twice is the same as applying it
    once. *)
Theorem escapeAttribute_safe_and_idempotent :
  (∀ s, Forall (fun c => c ≠ QUOTE ∧ c ≠ APOS ∧ c ≠ BACKTICK ∧ c ≠ LT ∧ c ≠ GT)
          (escapeAttribute s))
  ∧ (∀ s, Forall (fun c => c ≠ QUOTE ∧ c ≠ APOS ∧ c ≠ BACKTICK ∧ c ≠ LT ∧ c ≠ GT) s →
          escapeAttribute s = s)
  ∧ (∀ s, escapeAttribute (escapeAttribute s) = escapeAttribute s).
Proof.
  assert (∀ s, Forall (fun c => c ≠ QUOTE ∧ c ≠ APOS ∧ c ≠ BACKTICK ∧ c ≠ LT ∧ c ≠ GT)
                 (escapeAttribute s)) as Hsafe.
  { induction s as [|c s IH]; [constructor|].
    rewrite escapeAttribute_cons. apply Forall_app. split; [|done].
    destruct (escapeAttribute_char c)
      as [[_ E]|[[_ E]|[[_ E]|[[_ E]|[[_ E]|(?&?&?&?&?&E)]]]]]; rewrite E;
      repeat constructor; done. }
  assert (∀ s, Forall (fun c => c ≠ QUOTE ∧ c ≠ APOS ∧ c ≠ BACKTICK ∧ c ≠ LT ∧ c ≠ GT) s →
               escapeAttribute s = s) as Hid.
  { induction 1 as [|c s (?&?&?&?&?) _ IH]; [done|].
    rewrite escapeAttribute_cons, IH.
    destruct (escapeAttribute_char c)
      as [[? _]|[[? _]|[[? _]|[[? _]|[[? _]|(?&?&?&?&?&E)]]]]]; try done.
    by rewrite E. }
  split; [done|]. split; [done|]. intros s. apply Hid, Hsafe.
Qed.

End EscapeFacts.

(** ** The front-end script: what gets stashed *)
Module StashFacts.
Import JS Client TokenFacts RenderFacts.
Local Open Scope nat_scope.

(** Where the expression matches nowhere the text is copied. *)
Lemma stash_no_match re display (s : jstring) : ∀ st,
  (∀ k, re (drop k s) = None) → stash re display s 0 st = (s, st).
Proof.
  induction s as [|c r IH]; intros st Hre; [done|].
  pose proof (Hre 0) as H0. rewrite drop_0 in H0.
  cbn [stash]. rewrite H0. rewrite IH; [done|].
  intros k. apply (Hre (S k)).
Qed.

Lemma dollars_drop (s : jstring) k :
  length (filter (fun c => c = DOLLAR) (drop k s))
  ≤ length (filter (fun c => c = DOLLAR) s).
Proof.
  rewrite <- (take_drop k s) at 2. rewrite filter_app, length_app. lia.
Qed.

Lemma dollars_delimited (dl f R : jstring) :
  dl ≠ [] → Forall (fun c => c = DOLLAR) dl →
  2 ≤ length (filter (fun c => c = DOLLAR) (dl ++ f ++ dl ++ R)).
Proof.
  intros Hne Hdl. destruct dl as [|d dl']; [done|].
  apply Forall_cons in Hdl as [-> _].
  rewrite !filter_app, !length_app, !filter_cons_True by done. simpl. lia.
Qed.

Lemma no_match_without_two_dollars re (s : jstring) :
  (∀ (s : jstring) f len, re s = Some (f, len) →
     ∃ dl R, s = dl ++ f ++ dl ++ R ∧ len = length (dl ++ f ++ dl)
       ∧ dl ≠ [] ∧ Forall (fun c => c = DOLLAR) dl) →
  length (filter (fun c => c = DOLLAR) s) < 2 →
  ∀ k, re (drop k s) = None.
Proof.
  intros Hshape Hlt k. destruct (re (drop k s)) as [[f len]|] eqn:Hre; [|done].
  destruct (Hshape _ _ _ Hre) as (dl & R & Hs & _ & Hne & Hdl).
  pose proof (dollars_drop s k) as Hle. rewrite Hs in Hle.
  pose proof (dollars_delimited dl f R Hne Hdl). lia.
Qed.

(** X10: a text with fewer than two dollar signs holds no math: nothing
    is stashed, an unclosed dollar stays in the text, and
    [formatMeaning] returns what the markdown pass makes of the text as
    it is. *)
Theorem text_without_two_dollars_unchanged
    (marked_parse : jstring → jstring) (s : jstring) :
  s ≠ [] → length (filter (fun c => c = DOLLAR) s) < 2 →
  stashMath s = (s, []) ∧ formatMeaning marked_parse (Some s) = marked_parse s.
Proof.
  intros Hne Hlt.
  assert (stashMath s = (s, [])) as Hs.
  { unfold stashMath.
    rewrite stash_no_match
      by (by apply no_match_without_two_dollars; [apply matchDisplay_shape|]).
    rewrite stash_no_match
      by (by apply no_match_without_two_dollars; [apply matchInline_shape|]).
    done. }
  split; [done|]. unfold formatMeaning. destruct s; [done|].
  cbn [truthy]. by rewrite Hs.
Qed.

Lemma text_without_two_dollars_unchanged_witness :
  stashMath (lit "costs $5") = (lit "costs $5", [])
  ∧ formatMeaning Samples.paragraph (Some (lit "costs $5"))
    = Samples.paragraph (lit "costs $5").
Proof.
  apply (text_without_two_dollars_unchanged Samples.paragraph (lit "costs $5")).
  - discriminate.
  - vm_compute. lia.
Defined.

(** *** The stashed formulas *)

Lemma dropWhile_idem p (s : jstring) : dropWhile p (dropWhile p s) = dropWhile p s.
Proof.
  induction s as [|c r IH]; simpl; [done|].
  destruct (p c) eqn:Hc; [done|]. simpl. by rewrite Hc.
Qed.

Lemma elem_of_dropWhile p (s : jstring) x : x ∈ dropWhile p s → x ∈ s.
Proof.
  induction s as [|c r IH]; simpl; [done|].
  destruct (p c); [|done]. intros H. right. by apply IH.
Qed.

Lemma elem_of_trim (f : jstring) x : x ∈ trim f → x ∈ f.
Proof.
  unfold trim, trimEnd, trimStart. intros H.
  apply list_elem_of_In, in_rev, list_elem_of_In, elem_of_dropWhile in H.
  apply list_elem_of_In, in_rev, list_elem_of_In in H.
  by apply elem_of_dropWhile in H.
Qed.

(** A trimmed text has no whitespace left to trim. *)
Lemma trim_idem (f : jstring) : trim (trim f) = trim f.
Proof.
  unfold trim. set (y := trimStart f).
  assert (trimStart (trimEnd y) = trimEnd y) as ->.
  { destruct (AudioFacts.trimEnd_split y) as (run & Hy & _).
    destruct (trimEnd y) as [|c l] eqn:Ht; [done|].
    unfold trimStart. simpl.
    assert (isWhiteSpace c = false) as ->; [|done].
    unfold y, trimStart in Hy. clear Ht.
    destruct (dropWhile isWhiteSpace f) as [|c' l'] eqn:Hd; [done|].
    injection Hy as <- _.
    pose proof (dropWhile_idem isWhiteSpace f) as Hi. rewrite Hd in Hi.
    simpl in Hi. destruct (isWhiteSpace c'); [|done].
    exfalso. apply (f_equal length) in Hi.
    pose proof (AudioFacts.dropWhile_split isWhiteSpace l') as (pre & Hl & _).
    apply (f_equal length) in Hl. rewrite length_app in Hl. simpl in Hi. lia. }
  unfold trimEnd. by rewrite rev_involutive, dropWhile_idem.
Qed.

Lemma spanNoDollar_clean (r : jstring) : DOLLAR ∉ (spanNoDollar r).1.
Proof.
  induction r as [|c r IH]; simpl; [by intros ?%elem_of_nil|].
  destruct (N.eqb_spec c DOLLAR) as [->|Hc]; simpl; [by intros ?%elem_of_nil|].
  destruct (spanNoDollar r) as [f rest]. simpl in *.
  by intros [?|?]%elem_of_cons.
Qed.

Lemma matchInline_clean (s f : jstring) len :
  matchInline s = Some (f, len) → DOLLAR ∉ f.
Proof.
  unfold matchInline. destruct s as [|c r]; [done|].
  destruct (c =? DOLLAR)%N; [|done].
  pose proof (spanNoDollar_clean r) as Hc.
  destruct (spanNoDollar r) as [f' rest]. simpl in Hc.
  destruct (truthy f' && truthy rest); [|done]. by intros [= <- _].
Qed.

Section Entries.
Variable re : jstring → option (jstring * nat).
Variable display : bool.
Variable P : jstring → Prop.
Hypothesis re_shape : ∀ (s f : jstring) len,
  re s = Some (f, len) →
  ∃ dl R, s = dl ++ f ++ dl ++ R ∧ len = length (dl ++ f ++ dl)
    ∧ dl ≠ [] ∧ Forall (fun c => c = DOLLAR) dl.
Hypothesis re_group : ∀ (s f : jstring) len, re s = Some (f, len) → P f.

(** The entries one pass appends: the trimmed groups of its matches. *)
Lemma stash_entries : ∀ n (s : jstring) st,
  length s ≤ n → counter st = length (replacements st) →
  ∃ fs,
    replacements (stash re display s 0 st).2
    = replacements st
      ++ ((fun f => Some {| formula := trim f; isDisplay := display |}) <$> fs)
    ∧ Forall P fs.
Proof using re_shape re_group.
  induction n as [|n IH]; intros s st Hn Hst.
  { destruct s; [|simpl in Hn; lia]. exists []. simpl. by rewrite app_nil_r. }
  destruct s as [|c r].
  { exists []. simpl. by rewrite app_nil_r. }
  destruct (re (c :: r)) as [[f len]|] eqn:Hre.
  - destruct (stash_match re display re_shape _ f len st Hre)
      as (dl & R & Hs & Hne & Hdl & ->).
    rewrite Hst, array_set_push. cbn [snd].
    destruct (IH R {| counter := S (length (replacements st));
                      replacements := replacements st
                        ++ [Some {| formula := trim f; isDisplay := display |}] |})
      as (fs & -> & Hfs).
    { apply (f_equal length) in Hs. rewrite !length_app in Hs. simpl in *.
      destruct dl; [done|]. simpl in Hs. lia. }
    { simpl. rewrite length_app. simpl. lia. }
    exists (f :: fs). cbn [replacements]. rewrite <- app_assoc. split; [done|].
    constructor; [by eapply re_group|done].
  - cbn [stash]. rewrite Hre.
    destruct (IH r st) as (fs & Hr & Hfs); [simpl in Hn; lia|done|].
    exists fs. destruct (stash re display r 0 st). done.
Qed.
End Entries.

(** X11: the array of [formatMeaning] has no empty slot; the display
    formulas come first, then the inline ones; every formula is
    trimmed, and an inline formula holds no dollar sign. *)
Theorem stashed_entries_shape (s : jstring) :
  ∃ k,
    k ≤ length (stashMath s).2
    ∧ ∀ i o, (stashMath s).2 !! i = Some o →
        ∃ rep, o = Some rep
          ∧ (isDisplay rep = true ↔ i < k)
          ∧ trim (formula rep) = formula rep
          ∧ (isDisplay rep = false → DOLLAR ∉ formula rep).
Proof.
  unfold stashMath.
  destruct (stash_spec matchDisplay true matchDisplay_shape (length s) s
              {| counter := 0; replacements := [] |})
    as (out1 & new1 & Hs1 & _); [done..|].
  destruct (stash_entries matchDisplay true (fun _ => True) matchDisplay_shape
              (fun _ _ _ _ => I) (length s) s {| counter := 0; replacements := [] |})
    as (fs1 & Hf1 & _); [done..|].
  rewrite Hs1 in Hf1 |- *. cbn [replacements snd app] in Hf1. subst new1.
  destruct (stash_entries matchInline false (fun f : jstring => DOLLAR ∉ f)
              matchInline_shape matchInline_clean (length out1) out1
              {| counter := length ((fun f => Some {| formula := trim f; isDisplay := true |}) <$> fs1);
                 replacements := (fun f => Some {| formula := trim f; isDisplay := true |}) <$> fs1 |})
    as (fs2 & Hf2 & Hclean); [done..|].
  destruct (stash matchInline false out1 0 _) as [out2 st2].
  cbn [replacements snd] in *. rewrite Hf2.
  exists (length fs1). split; [rewrite length_app, !length_fmap; lia|].
  intros i o Ho. apply lookup_app_Some in Ho as [Ho|[Hi Ho]].
  - apply list_lookup_fmap_Some in Ho as (f & -> & Hf).
    eexists. split; [done|]. simpl. apply lookup_lt_Some in Hf.
    repeat split; [done|apply trim_idem|done].
  - rewrite length_fmap in Hi, Ho.
    apply list_lookup_fmap_Some in Ho as (f & -> & Hf).
    eexists. split; [done|]. simpl. repeat split; [done|lia|apply trim_idem|].
    intros _ Hd. apply elem_of_trim in Hd.
    rewrite Forall_forall in Hclean. apply (Hclean f); [|done].
    by eapply list_elem_of_lookup_2.
Qed.

(** X12: stashing loses and invents no placeholder: for every id, the
    occurrences of its placeholder in the text handed to the markdown
    pass and inside the stashed formulas are those of the definition,
    plus one when the id is in use. *)
Theorem stashMath_conserves_placeholders (s : jstring) (j : nat) :
  occurrences (placeholder j) (stashMath s).1
  + formula_occurrences (placeholder j) (stashMath s).2
  = occurrences (placeholder j) s
    + (if bool_decide (j < length (stashMath s).2) then 1 else 0).
Proof.
  destruct (stashMath_spec s) as (content & new1 & new2 & -> & _ & _ & H).
  apply H.
Qed.

End StashFacts.

(** ** The front-end script: putting the elements in *)
Module RestoreFacts.
Import JS Client TokenFacts RenderFacts EscapeFacts.
Local Open Scope nat_scope.

Lemma starts_with_true (pat s : jstring) :
  starts_with pat s = true → s = pat ++ drop (length pat) s.
Proof.
  revert s; induction pat as [|x pat IH]; intros [|c s]; simpl; try done.
  intros [->%N.eqb_eq H]%andb_true_iff. f_equal. by apply IH.
Qed.

Lemma splitFirst_Some (pat s before after : jstring) :
  splitFirst pat s = Some (before, after) → s = before ++ pat ++ after.
Proof.
  revert before; induction s as [|c r IH]; intros before; simpl.
  - destruct (starts_with pat []) eqn:Hs; [|done].
    intros [= <- <-]. by apply starts_with_true in Hs.
  - destruct (starts_with pat (c :: r)) eqn:Hs.
    + intros [= <- <-]. by apply starts_with_true in Hs.
    + destruct (splitFirst pat r) as [[b a]|]; [|done]. simpl.
      intros [= <- <-]. simpl. f_equal. by apply IH.
Qed.

Lemma splitFirst_None (pat s : jstring) :
  splitFirst pat s = None → occurrences pat s = 0.
Proof.
  induction s as [|c r IH]; simpl.
  - by destruct (starts_with pat []).
  - destruct (starts_with pat (c :: r)); [done|].
    destruct (splitFirst pat r); [done|]. intros _. by apply IH.
Qed.

(** A replacement text without a dollar is put in as it is. *)
Lemma getSubstitution_plain (matched before after repl : jstring) :
  DOLLAR ∉ repl → getSubstitution matched before after repl = repl.
Proof.
  induction repl as [|c r IH]; [done|].
  intros [Hc Hr]%not_elem_of_cons. simpl.
  rewrite (proj2 (N.eqb_neq c DOLLAR)) by done. f_equal. by apply IH.
Qed.

(** Membership in a list of literal characters, from membership in a
    part of it. *)
Ltac lit_case H :=
  apply list_elem_of_In in H; simpl in H; apply list_elem_of_In; simpl; tauto.

(** The element of an entry: two tags around nothing; the less-than
    signs are those of the tags. *)
Lemma placeholderHtml_tags (rep : replacement) :
  ∃ attrs : jstring,
    placeholderHtml rep = LT :: 115%N :: attrs ++ LT :: lit "/span>"
    ∧ (LT ∉ attrs)
    ∧ (DOLLAR ∉ formula rep → DOLLAR ∉ attrs).
Proof.
  exists (lit "pan data-math-placeholder=" ++ [QUOTE] ++ escapeAttribute (formula rep)
          ++ [QUOTE] ++ lit " data-math-mode=" ++ [QUOTE]
          ++ (if isDisplay rep then lit "display" else lit "inline")
          ++ [QUOTE] ++ lit ">").
  assert (∀ x : N,
            x ∉ QUOTE :: lit "pan data-math-placeholder=&quot;#3960ltg display inline>" →
            (x ∈ formula rep → x = QUOTE ∨ x = APOS ∨ x = BACKTICK ∨ x = LT ∨ x = GT) →
            x ∉ lit "pan data-math-placeholder=" ++ [QUOTE]
                ++ escapeAttribute (formula rep)
                ++ [QUOTE] ++ lit " data-math-mode=" ++ [QUOTE]
                ++ (if isDisplay rep then lit "display" else lit "inline")
                ++ [QUOTE] ++ lit ">") as Hfree.
  { intros x Hx Hf Hin. apply Hx.
    apply elem_of_app in Hin as [Hin|Hin]; [lit_case Hin|].
    apply elem_of_app in Hin as [Hin|Hin]; [lit_case Hin|].
    apply elem_of_app in Hin as [Hin|Hin].
    { apply elem_of_escapeAttribute in Hin as [(Hin&?&?&?&?&?)|Hin];
        [apply Hf in Hin; tauto|lit_case Hin]. }
    apply elem_of_app in Hin as [Hin|Hin]; [lit_case Hin|].
    apply elem_of_app in Hin as [Hin|Hin]; [lit_case Hin|].
    apply elem_of_app in Hin as [Hin|Hin]; [lit_case Hin|].
    apply elem_of_app in Hin as [Hin|Hin];
      [destruct (isDisplay rep); lit_case Hin|].
    apply elem_of_app in Hin as [Hin|Hin]; lit_case Hin. }
  split; [|split].
  - unfold placeholderHtml. rewrite <- !app_assoc. reflexivity.
  - apply Hfree; [|tauto].
    apply (bool_decide_unpack _). vm_compute. exact I.
  - intros Hd. apply Hfree; [|by intros ?].
    apply (bool_decide_unpack _). vm_compute. exact I.
Qed.

Lemma occurrences_lt_other j x (Y : jstring) :
  x ≠ 33%N →
  occurrences (placeholder j) (LT :: x :: Y) = occurrences (placeholder j) (x :: Y).
Proof.
  intros Hx. rewrite (placeholder_cons j).
  change (lit "!--knt-math-p" ++ decimal j ++ lit "-->")
    with (33%N :: (lit "--knt-math-p" ++ decimal j ++ lit "-->")).
  cbn [occurrences starts_with].
  by rewrite (proj2 (N.eqb_neq 33 x)), andb_false_r by done.
Qed.

(** No placeholder starts inside the element of an entry. *)
Lemma occurrences_element j (rep : replacement) (after : jstring) :
  occurrences (placeholder j) (placeholderHtml rep ++ after)
  = occurrences (placeholder j) after.
Proof.
  destruct (placeholderHtml_tags rep) as (attrs & -> & Hlt & _).
  rewrite <- !app_comm_cons, occurrences_lt_other by done.
  rewrite <- app_assoc, <- app_comm_cons, (app_comm_cons attrs _ 115%N).
  rewrite (placeholder_cons j).
  rewrite occurrences_skip by (by intros [?|?]%elem_of_cons).
  rewrite <- (placeholder_cons j).
  change (lit "/span>" ++ after) with (47%N :: (lit "span>" ++ after)).
  rewrite occurrences_lt_other by done.
  rewrite (placeholder_cons j).
  apply (occurrences_skip _ _ (lit "/span>") after).
  apply (bool_decide_unpack _). vm_compute. exact I.
Qed.

(** One replacement takes away one occurrence of the placeholder it
    looks for, and none of another placeholder. *)
Lemma replaceFirst_occurrences i j (rep : replacement) (html : jstring) :
  DOLLAR ∉ formula rep →
  occurrences (placeholder j)
    (replaceFirst (placeholder i) (placeholderHtml rep) html)
  = occurrences (placeholder j) html - (if bool_decide (i = j) then 1 else 0).
Proof.
  intros Hd. unfold replaceFirst.
  destruct (splitFirst (placeholder i) html) as [[before after]|] eqn:Hs.
  - apply splitFirst_Some in Hs as ->.
    rewrite getSubstitution_plain.
    2: { destruct (placeholderHtml_tags rep) as (attrs & -> & _ & Hclean).
         intros [?|[?|H]%elem_of_cons]%elem_of_cons; [done..|].
         apply elem_of_app in H as [H|H]; [by apply Hclean in H|].
         apply list_elem_of_In in H. simpl in H.
         repeat (destruct H as [H|H]; [discriminate H|]). done. }
    rewrite (placeholder_cons j).
    rewrite !(occurrences_app LT _ before).
    + rewrite <- (placeholder_cons j), occurrences_element, occurrences_placeholder.
      case_bool_decide; lia.
    + intros c X' Hc H. rewrite placeholder_cons in Hc. injection Hc as <- _.
      by apply placeholder_tail_clean in H as (? & _).
    + intros c X' Hc H.
      destruct (placeholderHtml_tags rep) as (attrs & Hp & _). rewrite Hp in Hc.
      injection Hc as <- _. by apply placeholder_tail_clean in H as (? & _).
  - case_bool_decide as Hij; [|lia]. subst.
    apply splitFirst_None in Hs. lia.
Qed.

(** The loop takes away one occurrence for each index it passes. *)
Lemma restore_occurrences (reps : list (option replacement)) : ∀ i j (html : jstring),
  Forall (fun o => ∃ rep, o = Some rep ∧ DOLLAR ∉ formula rep) reps →
  occurrences (placeholder j) (restore i reps html)
  = occurrences (placeholder j) html
    - (if bool_decide (i ≤ j < i + length reps) then 1 else 0).
Proof.
  induction reps as [|o reps IH]; intros i j html Hreps; simpl.
  - case_bool_decide; lia.
  - apply Forall_cons in Hreps as [(rep & -> & Hd) Hreps].
    rewrite IH, replaceFirst_occurrences by done.
    repeat case_bool_decide; lia.
Qed.

Lemma formatMeaning_render marked_parse (definition : option jstring) :
  formatMeaning marked_parse definition
  = restore 0 (mathSegments (render marked_parse definition))
      (htmlBody (render marked_parse definition)).
Proof.
  unfold formatMeaning, render. destruct definition as [[|c s]|]; try done.
  cbn [truthy]. by destruct (stashMath (c :: s)).
Qed.

Lemma segments_without_dollar marked_parse (definition : option jstring) :
  (∀ rep, Some rep ∈ mathSegments (render marked_parse definition) →
          DOLLAR ∉ formula rep) →
  Forall (fun o => ∃ rep, o = Some rep ∧ DOLLAR ∉ formula rep)
    (mathSegments (render marked_parse definition)).
Proof.
  intros Hd. apply Forall_forall. intros o Ho.
  assert (∃ rep, o = Some rep) as [rep ->]; [|eauto].
  revert Ho. unfold render. destruct definition as [[|c s]|]; simpl;
    try by intros ?%elem_of_nil.
  destruct (stashMath_spec (c :: s)) as (content & new1 & new2 & -> & H1 & H2 & _).
  simpl. rewrite Forall_forall in H1, H2.
  intros [Ho|Ho]%elem_of_app; [destruct (H1 o Ho) as [f ->]|destruct (H2 o Ho) as [f ->]];
    eauto.
Qed.

(** X13: when no stashed formula holds a dollar sign, the loop that
    puts the elements in removes, for each entry of the array, one
    occurrence of its placeholder from the markdown output (if there
    is one) and touches no other placeholder. *)
Theorem formatMeaning_replaces_placeholders
    (marked_parse : jstring → jstring) (definition : option jstring) (j : nat) :
  (∀ rep, Some rep ∈ mathSegments (render marked_parse definition) →
          DOLLAR ∉ formula rep) →
  occurrences (placeholder j) (formatMeaning marked_parse definition)
  = occurrences (placeholder j) (htmlBody (render marked_parse definition))
    - (if bool_decide (j < length (mathSegments (render marked_parse definition)))
       then 1 else 0).
Proof.
  intros Hd. rewrite formatMeaning_render, restore_occurrences
    by by apply segments_without_dollar.
  repeat case_bool_decide; lia.
Qed.

Lemma formatMeaning_replaces_placeholders_witness :
  occurrences (placeholder 1)
    (formatMeaning Samples.paragraph (Some Samples.forceText))
  = occurrences (placeholder 1)
      (htmlBody (render Samples.paragraph (Some Samples.forceText))) - 1.
Proof.
  apply (formatMeaning_replaces_placeholders Samples.paragraph
           (Some Samples.forceText) 1).
  intros rep Hrep.
  change (mathSegments (render Samples.paragraph (Some Samples.forceText)))
    with [Some {| formula := lit "F = ma"; isDisplay := true |};
          Some {| formula := lit "F"; isDisplay := false |}] in Hrep.
  apply elem_of_cons in Hrep as [[= ->] | Hrep];
    [apply (bool_decide_unpack _); vm_compute; exact I|].
  apply elem_of_cons in Hrep as [[= ->] | Hrep];
    [apply (bool_decide_unpack _); vm_compute; exact I|].
  by apply elem_of_nil in Hrep.
Defined.

(** X14: for a definition without placeholder-shaped text, in which no
    stashed formula encloses a placeholder or holds a dollar sign, and
    a markdown pass that hands placeholders through, the HTML that
    [formatMeaning] returns holds no placeholder any more. *)
Theorem formatMeaning_leaves_no_placeholder
    (marked_parse : jstring → jstring) (definition : option jstring) :
  (∀ j, occurrences (placeholder j) (htmlBody (render marked_parse definition))
        = occurrences (placeholder j) (stashMath (default [] definition)).1) →
  (∀ j, occurrences (placeholder j) (default [] definition) = 0) →
  (∀ j, formula_occurrences (placeholder j)
          (mathSegments (render marked_parse definition)) = 0) →
  (∀ rep, Some rep ∈ mathSegments (render marked_parse definition) →
          DOLLAR ∉ formula rep) →
  ∀ j, occurrences (placeholder j) (formatMeaning marked_parse definition) = 0.
Proof.
  intros Hmd Hin Hform Hd j.
  rewrite formatMeaning_render, restore_occurrences
    by by apply segments_without_dollar.
  rewrite Hmd. specialize (Hin j). specialize (Hform j). revert Hform.
  unfold render. destruct definition as [[|c s]|]; simpl; [intros; lia| |intros; lia].
  change (occurrences (placeholder j) (c :: s) = 0) in Hin.
  destruct (stashMath_spec (c :: s)) as (content & new1 & new2 & -> & _ & _ & Hocc).
  specialize (Hocc j). simpl. intros Hform.
  repeat case_bool_decide; lia.
Qed.

Lemma formatMeaning_leaves_no_placeholder_witness :
  occurrences (placeholder 0)
    (formatMeaning Samples.paragraph (Some Samples.forceText)) = 0
  ∧ occurrences (placeholder 1)
      (formatMeaning Samples.paragraph (Some Samples.forceText)) = 0.
Proof.
  assert (∀ j, occurrences (placeholder j)
                 (formatMeaning Samples.paragraph (Some Samples.forceText)) = 0)
    as H; [|by split].
  apply (formatMeaning_leaves_no_placeholder Samples.paragraph
           (Some Samples.forceText)).
  - intros j. apply occurrences_paragraph.
  - intros j. rewrite placeholder_cons. apply occurrences_none.
    apply (bool_decide_unpack _). vm_compute. exact I.
  - intros j.
    change (mathSegments (render Samples.paragraph (Some Samples.forceText)))
      with [Some {| formula := lit "F = ma"; isDisplay := true |};
            Some {| formula := lit "F"; isDisplay := false |}].
    rewrite placeholder_cons. unfold formula_occurrences. cbn [foldr formula].
    rewrite !occurrences_none; [done|..];
      apply (bool_decide_unpack _); vm_compute; exact I.
  - intros rep Hrep.
    change (mathSegments (render Samples.paragraph (Some Samples.forceText)))
      with [Some {| formula := lit "F = ma"; isDisplay := true |};
            Some {| formula := lit "F"; isDisplay := false |}] in Hrep.
    apply elem_of_cons in Hrep as [[= ->] | Hrep];
      [apply (bool_decide_unpack _); vm_compute; exact I|].
    apply elem_of_cons in Hrep as [[= ->] | Hrep];
      [apply (bool_decide_unpack _); vm_compute; exact I|].
    by apply elem_of_nil in Hrep.
Defined.

End RestoreFacts.

(** ** The front-end script: playing the plan *)
Module PlaybackFacts.
Import JS Client.
Local Open Scope nat_scope.

Lemma playNext_drop (urls : list jstring) i :
  omap (fun e => match e with Play src => Some src | Timeout _ => None end)
    (playNext urls i)
  = escapeAttribute <$> take 1 (drop i urls).
Proof.
  unfold playNext. destruct (urls !! i) as [url|] eqn:Hi.
  - by rewrite (drop_S _ _ _ Hi).
  - apply lookup_ge_None in Hi. by rewrite drop_ge.
Qed.

Lemma playNext_no_timeout (urls : list jstring) i :
  omap (fun e => match e with Play _ => None | Timeout ms => Some ms end)
    (playNext urls i) = [].
Proof. unfold playNext. by destruct (urls !! i). Qed.

(** The sources played while the events come in are the entries that
    follow the current one, one per event. *)
Lemma playAll_plays (urls : list jstring) (events : list audio_event) : ∀ i,
  omap (fun e => match e with Play src => Some src | Timeout _ => None end)
    (playAll urls i events)
  = escapeAttribute <$> take (length events) (drop (S i) urls).
Proof.
  induction events as [|e events IH]; intros i; [done|].
  cbn [playAll]. destruct (urls !! i) as [url|] eqn:Hi.
  - rewrite omap_app, IH.
    assert (omap (fun e => match e with Play src => Some src | Timeout _ => None end)
              match e with
              | ended => Timeout 200 :: playNext urls (S i)
              | error => playNext urls (S i)
              end
            = escapeAttribute <$> take 1 (drop (S i) urls)) as ->.
    { destruct e; [csimpl|]; apply playNext_drop. }
    rewrite <- fmap_app. f_equal. cbn [length].
    destruct (urls !! S i) as [url'|] eqn:Hi'.
    + by rewrite (drop_S _ _ _ Hi').
    + apply lookup_ge_None in Hi'. rewrite !drop_ge by lia. by rewrite !take_nil.
  - apply lookup_ge_None in Hi. rewrite drop_ge by lia. by rewrite take_nil.
Qed.

Lemma playAll_timeouts (urls : list jstring) (events : list audio_event) : ∀ i,
  omap (fun e => match e with Play _ => None | Timeout ms => Some ms end)
    (playAll urls i events)
  = omap (fun e => match e with ended => Some 200 | error => None end)
      (take (length urls - i) events).
Proof.
  induction events as [|e events IH]; intros i; [by rewrite take_nil|].
  cbn [playAll]. destruct (urls !! i) as [url|] eqn:Hi.
  - apply lookup_lt_Some in Hi.
    replace (length urls - i) with (S (length urls - S i)) by lia.
    cbn [take]. rewrite omap_app, IH.
    destruct e; csimpl; by rewrite playNext_no_timeout.
  - apply lookup_ge_None in Hi.
    by replace (length urls - i) with 0 by lia.
Qed.

(** The effects in the order they are made: each event of the source
    being played is answered by the pause, if the source has ended, and
    then by the next source, if there is one. *)
Lemma playAll_trace (urls : list jstring) (events : list audio_event) : ∀ i,
  i < length urls →
  playAll urls i events
  = concat (zip_with
      (fun e next =>
         match e with ended => [Timeout 200] | error => [] end
         ++ match next with
            | Some url => [Play (escapeAttribute url)]
            | None => []
            end)
      events ((Some <$> drop (S i) urls) ++ [None])).
Proof.
  induction events as [|e events IH]; intros i Hi; [done|].
  cbn [playAll]. destruct (lookup_lt_is_Some_2 urls i Hi) as [url Hurl].
  rewrite Hurl. unfold playNext.
  destruct (urls !! S i) as [url'|] eqn:Hnext.
  - rewrite (drop_S _ _ _ Hnext). cbn [fmap list_fmap app zip_with concat].
    rewrite IH by (by apply lookup_lt_Some in Hnext).
    f_equal. by destruct e.
  - apply lookup_ge_None in Hnext as Hlen. rewrite drop_ge by done.
    cbn [fmap list_fmap app zip_with concat].
    assert (playAll urls (S i) events = []) as ->.
    { destruct events; [done|]. cbn [playAll]. by rewrite Hnext. }
    assert (∀ f : audio_event → option jstring → list effect,
              zip_with f events [] = []) as ->.
    { intros f. by destruct events. }
    f_equal. by destruct e.
Qed.

(** X15: after a click the first source of the plan is played; then
    each event of the source being played is answered, in this order,
    by a pause of 200 ms if the source has ended (none if it failed)
    and by the next source of the plan, if there is one, after the last
    source by the pause alone; events that come when the plan is used
    up do nothing.  So the sources are played in the order of the plan,
    each at most once and one more than events have come in, with the
    attribute escaping applied, a pause is set exactly after each entry
    that ended, and a blank audio reference plays nothing. *)
Theorem playClick_plays_plan_in_order (audioUrl : jstring) (events : list audio_event) :
  playClick audioUrl events
  = match audioUrls audioUrl with
    | [] => []
    | url :: rest =>
        Play (escapeAttribute url)
        :: concat (zip_with
             (fun e next =>
                match e with ended => [Timeout 200] | error => [] end
                ++ match next with
                   | Some url' => [Play (escapeAttribute url')]
                   | None => []
                   end)
             events ((Some <$> rest) ++ [None]))
    end
  ∧ omap (fun e => match e with Play src => Some src | Timeout _ => None end)
      (playClick audioUrl events)
    = escapeAttribute <$> take (S (length events)) (audioUrls audioUrl)
  ∧ omap (fun e => match e with Play _ => None | Timeout ms => Some ms end)
      (playClick audioUrl events)
    = omap (fun e => match e with ended => Some 200 | error => None end)
        (take (length (audioUrls audioUrl)) events).
Proof.
  split.
  - unfold playClick. destruct (audioUrls audioUrl) as [|url rest]; [done|].
    rewrite bool_decide_eq_false_2 by done.
    rewrite playAll_trace by (simpl; lia). reflexivity.
  - unfold playClick. case_bool_decide as Hlen.
    + apply length_zero_iff_nil in Hlen. rewrite Hlen. by rewrite take_nil.
    + rewrite !omap_app, playNext_drop, playNext_no_timeout, playAll_plays,
        playAll_timeouts, Nat.sub_0_r, drop_0.
      split; [|done].
      destruct (audioUrls audioUrl) as [|url urls]; [done|]. reflexivity.
Qed.

End PlaybackFacts.
